(** * Palpiteiro web-app: formation layout and composition pipeline

    A shallow embedding of [app.py]: the line-up request ([get_line_up]),
    the layout step ([transform_data]), the asset download
    ([download_image], [transform_row]) on a thread pool, and the drawing
    of every player on the figure ([add_player_image], [main]).

    Conventions of the embedding:
    - a pandas frame is the list of its rows, in row order;
    - JSON numbers (points, price, coordinates) are rationals ([Q]);
      Python's [==], [max], [+] and [-] on them are [Qeq_bool], the
      greatest element and [Qplus]/[Qminus];
    - an exception is a value of [exn]; a call that may raise returns a
      [result];
    - the plotly figure is mutated in place by the source, so the drawing
      code takes the figure and returns it with what it added, next to its
      result, also when it raises;
    - a downloaded asset is an unread byte stream: [Image.open] reads it to
      its end, and a second [Image.open] of the same stream sees no byte. *)

From Stdlib Require Import ZArith QArith Qminmax List Bool Lia Permutation.
From Stdlib Require Import Ascii String DecimalString.
From stdpp Require Import base gmap strings.

Import ListNotations.
Local Open Scope string_scope.
Local Open Scope Z_scope.

(** ** Exceptions and results *)

Inductive exn : Type :=
| KeyError (key : string)
| UnidentifiedImageError
| ConnectionError (url : string).

Inductive result (A : Type) : Type :=
| Ok (a : A)
| Raise (e : exn).
Arguments Ok {A} a.
Arguments Raise {A} e.

Definition bind_result {A B} (r : result A) (k : A -> result B) : result B :=
  match r with
  | Ok a => k a
  | Raise e => Raise e
  end.

(** [Series.apply(f)] with an [f] that may raise: the rows are visited in
    order and the first exception leaves the whole call. *)
Fixpoint apply_result {A B} (f : A -> result B) (l : list A) : result (list B) :=
  match l with
  | [] => Ok []
  | a :: l' =>
      bind_result (f a) (fun b =>
      bind_result (apply_result f l') (fun bs => Ok (b :: bs)))
  end.

(** ** Data model *)

(** One record of ["players"] or ["bench"] in the service's output. *)
Record Player : Type := {
  id : Z;
  name : string;
  position : string;
  price : Q;
  points : Q;
  photo : string;
  club_badge : string
}.

(** A row of the frame [get_line_up] returns: the record and its
    ["type"] column. *)
Record Row : Type := {
  player : Player;
  type : string
}.

(** A row of the frame [transform_data] returns. [r_name] is the ["name"]
    column, overwritten when the captain is marked; [r_captain] is [None]
    when the ["captain"] column was not created. *)
Record PlotRow : Type := {
  row : Row;
  r_name : string;
  rank : Z;
  plot : string;
  x : Q;
  y : Q;
  badge_x : Q;
  badge_y : Q;
  r_captain : option bool
}.

(** An entry of [pos.json]. *)
Record Coord : Type := {
  pos_x : Q;
  pos_y : Q
}.

(** ** Constants *)

Definition SCHEME : list (string * Z) :=
  [("goalkeeper", 1); ("fullback", 2); ("defender", 2);
   ("midfielder", 3); ("forward", 3); ("coach", 1)].
Definition MAX_PLAYERS_PER_CLUB : Z := 5.
Definition ERROR_MSG : string :=
  "Sorry, something went wrong. Please try again later.".
Definition SPINNER_MSG : string := EmptyString.

(** ** [get_line_up] *)

(** The body of a response: [res.json()], with ["output"] already decoded
    by [json.loads]. *)
Record Output : Type := {
  out_players : list Player;
  out_bench : list Player
}.

Record Response : Type := {
  status_code : Z;
  text : string;
  status : string;
  output : Output
}.

(** What the script shows or prints while it runs. *)
Inductive event : Type :=
| Print (s : string)
| StError (msg : string).

(** [st.stop()] ends the script run: nothing after it is executed. *)
Inductive run (A : Type) : Type :=
| Returned (a : A)
| Stopped.
Arguments Returned {A} a.
Arguments Stopped {A}.

Definition tag (t : string) (p : Player) : Row := {| player := p; type := t |}.

Definition get_line_up (res : Response) : list event * run (list Row) :=
  if 300 <=? status_code res then
    ([Print (text res); StError ERROR_MSG], Stopped)
  else if negb (String.eqb (status res) "SUCCEEDED") then
    ([StError ERROR_MSG], Stopped)
  else
    let players := map (tag "players") (out_players (output res)) in
    let bench := map (tag "bench") (out_bench (output res)) in
    ([], Returned (players ++ bench)%list).

(** ** [transform_data] *)

(** The key of [groupby(["position", "type"])]. *)
Definition same_group (a b : Row) : bool :=
  String.eqb (position (player a)) (position (player b))
  && String.eqb (type a) (type b).

Definition group_of (data : list Row) (r : Row) : list Row :=
  List.filter (same_group r) data.

Definition count_if {A} (f : A -> bool) (l : list A) : Z :=
  Z.of_nat (length (List.filter f l)).

(** [rank()] with pandas' defaults (ascending, ties averaged): a value is
    given the mean of the places [less + 1 .. less + equal] it takes in its
    sorted group. [rank2] is twice that mean, which is an integer. *)
Definition rank2 (data : list Row) (r : Row) : Z :=
  let g := group_of data r in
  2 * count_if (fun r' => id (player r') <? id (player r)) g
  + count_if (fun r' => id (player r') =? id (player r)) g + 1.

(** [.astype(int)] truncates toward zero. *)
Definition rank_of (data : list Row) (r : Row) : Z :=
  Z.quot (rank2 data r) 2.

(** Python's [str] of an [int]. *)
Definition str_int (z : Z) : string := NilZero.string_of_int (Z.to_int z).

(** [f'{x["type"]}-{x["position"]}-{x["rank"]}'] *)
Definition plot_key (t p : string) (rk : Z) : string :=
  (t ++ "-" ++ p ++ "-" ++ str_int rk)%string.

(** [pos[x]] on the dict loaded from [pos.json]. *)
Definition lookup_pos (pos : gmap string Coord) (key : string) : result Coord :=
  match pos !! key with
  | Some c => Ok c
  | None => Raise (KeyError key)
  end.

(** The columns ["rank"], ["plot"], ["x"], ["y"], ["badge_x"] and
    ["badge_y"] of one row. Each column of the source is computed row by
    row, and the ["y"] pass looks up the keys the ["x"] pass has found, so
    the first key that is missing, in row order, is the one raised. *)
Definition place (pos : gmap string Coord) (data : list Row) (r : Row)
  : result PlotRow :=
  let rk := rank_of data r in
  let key := plot_key (type r) (position (player r)) rk in
  bind_result (lookup_pos pos key) (fun c =>
  Ok {| row := r;
        r_name := name (player r);
        rank := rk;
        plot := key;
        x := pos_x c;
        y := pos_y c;
        badge_x := (pos_x c + (25 # 1000))%Q;
        badge_y := (pos_y c - (75 # 1000))%Q;
        r_captain := None |}).

(** [Series.max()]; an empty column has none. *)
Definition Series_max (l : list Q) : option Q :=
  match l with
  | [] => None
  | p :: ps => Some (fold_left Qmax ps p)
  end.

(** The ["captain"] column and the rewritten ["name"] of one row. *)
Definition mark_captain (top : option Q) (r : PlotRow) : PlotRow :=
  let c := match top with
           | Some m => Qeq_bool (points (player (row r))) m
           | None => false
           end in
  {| row := row r;
     r_name := if c then ("(C) " ++ r_name r)%string else r_name r;
     rank := rank r;
     plot := plot r;
     x := x r;
     y := y r;
     badge_x := badge_x r;
     badge_y := badge_y r;
     r_captain := Some c |}.

(** A frame without rows comes from two empty record lists and has the
    ["type"] column only: [groupby] raises on the missing ["position"]. *)
Definition transform_data (pos : gmap string Coord) (data : list Row)
  (captain : bool) : result (list PlotRow) :=
  match data with
  | [] => Raise (KeyError "position")
  | _ :: _ =>
      bind_result (apply_result (place pos data) data) (fun rows =>
      if captain then
        let top := Series_max (map (fun r => points (player (row r))) rows) in
        Ok (map (mark_captain top) rows)
      else Ok rows)
  end.

(** ** Assets and the thread pool *)

(** The unread content of [session.get(url, stream=True).raw]. *)
Definition Stream : Type := list Byte.byte.

(** A row after [transform_row]: ["photo"] and ["club_badge"] hold the
    streams instead of the addresses. *)
Record Fetched : Type := {
  laid : PlotRow;
  f_photo : Stream;
  f_club_badge : Stream
}.

Section Download.

(** What [session.get] answers for an address: a stream, or a
    connection failure. *)
Variable session_get : string -> result Stream.

Definition download_image (url : string) : result Stream := session_get url.

Definition transform_row (r : PlotRow) : result Fetched :=
  bind_result (download_image (photo (player (row r)))) (fun p =>
  bind_result (download_image (club_badge (player (row r)))) (fun b =>
  Ok {| laid := r; f_photo := p; f_club_badge := b |})).

(** [ThreadPoolExecutor(max_workers)] at work on the submitted tasks,
    numbered in submission order: [queue] waits for a worker, [running]
    is on a worker, [finished] lists the tasks in the order they ended,
    and [slots] holds the result of every future that is done. *)
Record Pool : Type := {
  queue : list nat;
  running : list nat;
  finished : list nat;
  slots : list (option (result Fetched))
}.

Definition submit_all (rows : list PlotRow) : Pool :=
  {| queue := seq 0 (length rows);
     running := [];
     finished := [];
     slots := replicate (length rows) None |}.

(** Idle workers take tasks from the queue, first in first out. *)
Definition refill (max_workers : nat) (p : Pool) : Pool :=
  let free := (max_workers - length (running p))%nat in
  {| queue := skipn free (queue p);
     running := (running p ++ firstn free (queue p))%list;
     finished := finished p;
     slots := slots p |}.

Fixpoint remove_nth {A} (n : nat) (l : list A) : list A :=
  match n, l with
  | _, [] => []
  | O, _ :: l' => l'
  | S n', a :: l' => a :: remove_nth n' l'
  end.

(** One task ends: which one of the running tasks is the scheduler's
    choice. Its future receives what [transform_row] returned. *)
Definition complete (rows : list PlotRow) (choice : nat) (p : Pool) : Pool :=
  match running p with
  | [] => p
  | t0 :: _ =>
      let j := (choice mod length (running p))%nat in
      let t := nth j (running p) t0 in
      {| queue := queue p;
         running := remove_nth j (running p);
         finished := (finished p ++ [t])%list;
         slots := match rows !! t with
                  | Some r => <[t := Some (transform_row r)]> (slots p)
                  | None => slots p
                  end |}
  end.

(** The pool runs until [fuel] tasks have ended; a schedule that is too
    short is continued with the choice 0. *)
Fixpoint run_pool (max_workers : nat) (rows : list PlotRow)
  (sched : list nat) (fuel : nat) (p : Pool) : Pool :=
  match fuel with
  | O => p
  | S fuel' =>
      let p' := complete rows (hd O sched) (refill max_workers p) in
      run_pool max_workers rows (tl sched) fuel' p'
  end.

Definition executor (max_workers : nat) (rows : list PlotRow)
  (sched : list nat) : Pool :=
  run_pool max_workers rows sched (length rows) (submit_all rows).

(** [future.result()] of the future of task [t]. *)
Definition future_result (p : Pool) (t : nat) : option (result Fetched) :=
  match slots p !! t with
  | Some (Some r) => Some r
  | _ => None
  end.

(** A run of the pool and of the loop that consumes it: [ends] says which
    running task ends next, [early] how many tasks have ended when
    [as_completed] is called, and [picks] in which order the set of the
    futures that are done by then is iterated. *)
Record Schedule : Type := {
  ends : list nat;
  early : nat;
  picks : list nat
}.

(** The iteration of a set with the elements [s]: the order is not fixed by
    the elements, each next one is taken as [picks] says. *)
Fixpoint iterate_set {A} (n : nat) (picks : list nat) (s : list A) : list A :=
  match n, s with
  | S n', a0 :: _ =>
      let j := (hd O picks mod length s)%nat in
      nth j s a0 :: iterate_set n' (tl picks) (remove_nth j s)
  | _, _ => []
  end.

(** The order in which [as_completed] yields the tasks that ended in the
    order [fin]: first the futures already done at the call
    ([finished = list(finished)] of a set), then the others as they end. *)
Definition yield_order (fin : list nat) (sched : Schedule) : list nat :=
  let done := firstn (early sched) fin in
  (iterate_set (length done) (picks sched) done
   ++ skipn (early sched) fin)%list.

(** [concurrent.futures.as_completed(futures)]: the results of the futures
    in the order they are yielded. *)
Definition as_completed (p : Pool) (sched : Schedule)
  : list (result Fetched) :=
  omap (future_result p) (yield_order (finished p) sched).

End Download.

(** ** The figure *)

Section Drawing.

(** A decoded picture; [identify] is PIL's recognition of the bytes of a
    file, and [str_float] is Python's formatting of a float. *)
Context {Image : Type}.
Variable identify : list Byte.byte -> option Image.
Variable str_float : Q -> string.

(** The keyword arguments of [fig.add_layout_image]. *)
Record LayoutImage : Type := {
  source : Image;
  xref : string;
  yref : string;
  img_x : Q;
  img_y : Q;
  sizex : Q;
  sizey : Q;
  xanchor : string;
  yanchor : string;
  layer : option string;
  sizing : option string
}.

(** The keyword arguments of [go.Scatter]. *)
Record Scatter : Type := {
  sc_x : list Q;
  sc_y : list Q;
  mode : string;
  marker_size : Z;
  marker_color : string;
  text_label : string;
  textposition : string;
  hovertemplate : string
}.

(** The keyword arguments of [fig.update_layout]. *)
Record LayoutOptions : Type := {
  height : Z;
  plot_bgcolor : string;
  axes_visible : bool;
  axes_fixedrange : bool;
  yaxis_range : Q * Q;
  margin : Z;
  showlegend : bool
}.

(** [go.Figure]: the layout images and the traces, in the order they
    were added, and the layout options once they are set. *)
Record Figure : Type := {
  images : list LayoutImage;
  traces : list Scatter;
  options : option LayoutOptions
}.

Definition empty_figure : Figure :=
  {| images := []; traces := []; options := None |}.

Definition add_layout_image (fig : Figure) (im : LayoutImage) : Figure :=
  {| images := (images fig ++ [im])%list;
     traces := traces fig;
     options := options fig |}.

Definition add_trace (fig : Figure) (sc : Scatter) : Figure :=
  {| images := images fig;
     traces := (traces fig ++ [sc])%list;
     options := options fig |}.

Definition update_layout (fig : Figure) (o : LayoutOptions) : Figure :=
  {| images := images fig; traces := traces fig; options := Some o |}.

(** [Image.open(fp)] on a stream that cannot seek: the stream is read to
    its end, then the bytes are identified. *)
Definition Image_open (fp : Stream) : result Image * Stream :=
  (match identify fp with
   | Some im => Ok im
   | None => Raise UnidentifiedImageError
   end, []).

Definition centered (im : Image) (x y : Q) : LayoutImage :=
  {| source := im; xref := "x"; yref := "y"; img_x := x; img_y := y;
     sizex := 15 # 100; sizey := 15 # 100;
     xanchor := "center"; yanchor := "middle";
     layer := None; sizing := None |}.

Definition badge (im : Image) (x y : Q) : LayoutImage :=
  {| source := im; xref := "x"; yref := "y";
     img_x := (x + (1 # 100))%Q; img_y := (y - (15 # 1000))%Q;
     sizex := 75 # 1000; sizey := 75 # 1000;
     xanchor := "left"; yanchor := "top";
     layer := None; sizing := None |}.

Definition marker (x y : Q) (name : string) (price : Q) : Scatter :=
  {| sc_x := [x]; sc_y := [y];
     mode := "markers+text";
     marker_size := 50; marker_color := "rgba(0,0,0,0)";
     text_label := name;
     textposition := "bottom center";
     hovertemplate := ("$" ++ str_float price ++ "<extra></extra>")%string |}.

(** The [except UnidentifiedImageError] block, entered with the figure
    and the logo stream as the [try] block left them. *)
Definition logo_only (fig : Figure) (x y : Q) (logo : Stream)
  : Figure * result unit :=
  match Image_open logo with
  | (Ok im, _) => (add_layout_image fig (centered im x y), Ok tt)
  | (Raise e, _) => (fig, Raise e)
  end.

(** The [try] block and its handler: the photo is opened first, and the
    logo only after the photo's image was added. *)
Definition add_images (fig : Figure) (x y : Q) (photo logo : Stream)
  : Figure * result unit :=
  match Image_open photo with
  | (Ok im, _) =>
      let fig1 := add_layout_image fig (centered im x y) in
      match Image_open logo with
      | (Ok lg, _) => (add_layout_image fig1 (badge lg x y), Ok tt)
      | (Raise _, logo') => logo_only fig1 x y logo'
      end
  | (Raise _, _) => logo_only fig x y logo
  end.

Definition add_player_image (fig : Figure) (x y : Q) (name : string)
  (photo logo : Stream) (price : Q) : Figure * result unit :=
  match add_images fig x y photo logo with
  | (fig', Ok _) => (add_trace fig' (marker x y name price), Ok tt)
  | (fig', Raise e) => (fig', Raise e)
  end.

(** The body of the [for future in as_completed(futures)] loop, run on
    the results in the order given. *)
Fixpoint draw_players (fig : Figure) (done : list (result Fetched))
  : Figure * result unit :=
  match done with
  | [] => (fig, Ok tt)
  | Raise e :: _ => (fig, Raise e)
  | Ok r :: rest =>
      match add_player_image fig (x (laid r)) (y (laid r))
              (r_name (laid r)) (f_photo r) (f_club_badge r)
              (price (player (row (laid r)))) with
      | (fig', Ok _) => draw_players fig' rest
      | (fig', Raise e) => (fig', Raise e)
      end
  end.

(** ** [main] *)

Inductive Game : Type := Cartola | CartolaExpress.

(** What a run of the script ends with. *)
Inductive outcome : Type :=
| Chart (fig : Figure)
| Halted
| Uncaught (e : exn).

Variable session_get : string -> result Stream.
Variable pos : gmap string Coord.
Variable pitch : Image.

Definition background : LayoutImage :=
  {| source := pitch; xref := "paper"; yref := "y";
     img_x := 0; img_y := 0; sizex := 1; sizey := 1;
     xanchor := "left"; yanchor := "bottom";
     layer := Some "below"; sizing := Some "stretch" |}.

Definition chart_options : LayoutOptions :=
  {| height := 450;
     plot_bgcolor := "rgba(0,0,0,0)";
     axes_visible := false;
     axes_fixedrange := true;
     yaxis_range := ((-25 # 100)%Q, 1%Q);
     margin := 0;
     showlegend := false |}.

(** The figure after the loop over the completed futures, for a pool of
    [max_workers] workers whose tasks end and are yielded as [sched]
    says. *)
Definition compose (max_workers : nat) (sched : Schedule)
  (data : list PlotRow) : Figure * result unit :=
  let fig := add_layout_image empty_figure background in
  let pool := executor session_get max_workers data (ends sched) in
  draw_players fig (as_completed pool sched).

(** [main] for the game chosen in the sidebar, the answer [res] of the
    service and the pool's schedule. *)
Definition main (game : Game) (res : Response) (sched : Schedule)
  : list event * outcome :=
  match get_line_up res with
  | (log, Stopped) => (log, Halted)
  | (log, Returned data) =>
      let captain := match game with
                     | Cartola => true
                     | CartolaExpress => false
                     end in
      match transform_data pos data captain with
      | Raise e => (log, Uncaught e)
      | Ok data =>
          match compose 5 sched data with
          | (_, Raise e) => (log, Uncaught e)
          | (fig, Ok _) => (log, Chart (update_layout fig chart_options))
          end
      end
  end.

End Drawing.

Arguments LayoutImage : clear implicits.
Arguments Figure : clear implicits.
Arguments outcome : clear implicits.


(** * Notions used to state the properties *)

(** The number of elements of [l] whose key is smaller than the key of [a]. *)
Definition smaller {A} (key : A -> Z) (l : list A) (a : A) : Z :=
  count_if (fun b => key b <? key a) l.

(** The ["id"] column of a row. *)
Definition pid (r : Row) : Z := id (player r).


(** The ["plot"] column [transform_data] computes for a row of [data]. *)
Definition plot_of (data : list Row) (r : Row) : string :=
  plot_key (type r) (position (player r)) (rank_of data r).

Definition is_captain (r : PlotRow) : bool :=
  match r_captain r with
  | Some c => c
  | None => false
  end.

(** The messages [st.error] has shown. *)
Definition st_errors (log : list event) : list string :=
  omap (fun e => match e with StError m => Some m | Print _ => None end) log.

(** The futures a pool has filled once the tasks of [fin] have ended. *)
Definition expected_slots (session_get : string -> result Stream)
  (rows : list PlotRow) (fin : list nat) : list (option (result Fetched)) :=
  imap (fun t r => if bool_decide (t ∈ fin)
                   then Some (transform_row session_get r) else None) rows.

(** Every submitted task is waiting, running or finished, and exactly the
    futures of the finished tasks hold a result, that of their own row. *)
Definition pool_inv (session_get : string -> result Stream)
  (rows : list PlotRow) (p : Pool) : Prop :=
  Permutation (queue p ++ running p ++ finished p)%list (seq 0 (length rows))
  /\ slots p = expected_slots session_get rows (finished p).

Section Layers.

Context {Image : Type}.
Variable identify : list Byte.byte -> option Image.
Variable str_float : Q -> string.

(** The figure with the images [ims] and the trace [sc] added. *)
Definition extend (fig : Figure Image) (ims : list (LayoutImage Image))
  (sc : list Scatter) : Figure Image :=
  {| images := (images fig ++ ims)%list;
     traces := (traces fig ++ sc)%list;
     options := options fig |}.

(** The images of a row whose logo is an image: photo and badge, or the
    logo alone in the photo's place. *)
Definition overlays (r : Fetched) : list (LayoutImage Image) :=
  match identify (f_club_badge r), identify (f_photo r) with
  | Some lg, Some im =>
      [centered im (x (laid r)) (y (laid r));
       badge lg (x (laid r)) (y (laid r))]
  | Some lg, None => [centered lg (x (laid r)) (y (laid r))]
  | None, _ => []
  end.

Definition hit_target (r : Fetched) : Scatter :=
  marker str_float (x (laid r)) (y (laid r)) (r_name (laid r))
    (price (player (row (laid r)))).

(** The rows among the results of the futures. *)
Definition fetched_rows (done : list (result Fetched)) : list Fetched :=
  flat_map (fun d => match d with Ok r => [r] | Raise _ => [] end) done.

(** A result the loop draws without an exception. *)
Definition drawable (d : result Fetched) : Prop :=
  match d with
  | Ok r => is_Some (identify (f_club_badge r))
  | Raise _ => False
  end.

(** The figure before the loop. *)
Definition pitch_only (pitch : Image) : Figure Image :=
  add_layout_image empty_figure (background pitch).

(** The rows the loop draws, in the order their futures are yielded. *)
Definition drawn (session_get : string -> result Stream) (k : nat)
  (sched : Schedule) (data : list PlotRow) : list Fetched :=
  fetched_rows (as_completed (executor session_get k data (ends sched)) sched).

End Layers.

(** * Sample inputs *)

(** A record whose assets are served under the addresses [ph] and [bd]. *)
Definition sample_player (i : Z) (nm ps : string) (pts : Q) (ph bd : string)
  : Player :=
  {| id := i; name := nm; position := ps; price := 10; points := pts;
     photo := ph; club_badge := bd |}.

Definition sample_response (code : Z) (st : string) (ps bs : list Player)
  : Response :=
  {| status_code := code; text := "body"; status := st;
     output := {| out_players := ps; out_bench := bs |} |}.

Definition at_xy (px py : Q) : Coord := {| pos_x := px; pos_y := py |}.

(** Three midfielders, ids 101 to 103, points 5, 9 and 5. *)
Definition midfield : list Player :=
  [sample_player 101 "Ana" "midfielder" 5 "PNG/101" "PNG/a";
   sample_player 102 "Bia" "midfielder" 9 "PNG/102" "PNG/b";
   sample_player 103 "Cris" "midfielder" 5 "PNG/103" "PNG/c"].

Definition midfield_response : Response :=
  sample_response 200 "SUCCEEDED" midfield [].

Definition midfield_rows : list Row := map (tag "players") midfield.

Definition midfield_pos : gmap string Coord :=
  list_to_map [("players-midfielder-1", at_xy (1 # 4) (1 # 2));
               ("players-midfielder-2", at_xy (2 # 4) (1 # 2));
               ("players-midfielder-3", at_xy (3 # 4) (1 # 2))].

(** A table keyed by ["starters"] instead of ["players"]. *)
Definition starters_pos : gmap string Coord :=
  list_to_map [("starters-midfielder-1", at_xy (1 # 4) (1 # 2));
               ("starters-midfielder-2", at_xy (2 # 4) (1 # 2));
               ("starters-midfielder-3", at_xy (3 # 4) (1 # 2))].

(** Points 10, 8, 10 and 5: two players on the field, two on the bench. *)
Definition tied_rows : list Row :=
  [tag "players" (sample_player 1 "Davi" "forward" 10 "PNG/1" "PNG/d");
   tag "players" (sample_player 2 "Enzo" "forward" 8 "PNG/2" "PNG/e");
   tag "bench" (sample_player 3 "Caio" "forward" 10 "PNG/3" "PNG/f");
   tag "bench" (sample_player 4 "Gil" "goalkeeper" 5 "PNG/4" "PNG/g")].

Definition tied_pos : gmap string Coord :=
  list_to_map [("players-forward-1", at_xy (1 # 4) (3 # 4));
               ("players-forward-2", at_xy (3 # 4) (3 # 4));
               ("bench-forward-1", at_xy (1 # 4) (-1 # 8));
               ("bench-goalkeeper-1", at_xy (3 # 4) (-1 # 8))].

(** In the samples the content behind an address is the text of the
    address, a file is an image when it starts with the letter P, and a
    float is printed as a fraction. *)
Definition sample_get (url : string) : result Stream :=
  Ok (list_byte_of_string url).

Definition sample_identify (bs : list Byte.byte) : option (list Byte.byte) :=
  match bs with
  | Byte.x50 :: _ => Some bs
  | _ => None
  end.

Definition sample_str_float (q : Q) : string :=
  (str_int (Qnum q) ++ "/" ++ str_int (Z.pos (Qden q)))%string.

Definition sample_pitch : list Byte.byte := list_byte_of_string "PNG/pitch".

(** A schedule in which [as_completed] is called before any task has
    ended, so that the futures are yielded in the order [e] makes the tasks
    end. *)
Definition in_order (e : list nat) : Schedule :=
  {| ends := e; early := 0; picks := [] |}.

(** The script on the samples: the game, the answer and the schedule are
    left open. *)
Definition sample_main (pos : gmap string Coord) (game : Game)
  (res : Response) (sched : Schedule)
  : list event * outcome (list Byte.byte) :=
  main sample_identify sample_str_float sample_get pos sample_pitch
    game res sched.

(** The midfielders again, the photo of 102 and the badge of 103 being no
    images. *)
Definition broken_assets : list Player :=
  [sample_player 101 "Ana" "midfielder" 5 "PNG/101" "PNG/a";
   sample_player 102 "Bia" "midfielder" 9 "HTML/102" "PNG/b";
   sample_player 103 "Cris" "midfielder" 5 "PNG/103" "HTML/c"].

(** The frame [transform_data] returns for the three midfielders. *)
Definition midfield_laid : list PlotRow :=
  match transform_data midfield_pos midfield_rows true with
  | Ok out => out
  | Raise _ => []
  end.

(** * Further notions *)

From Stdlib Require DecimalZ DecimalPos.

(** A string without the character ["-"]. *)
Fixpoint dashless (s : string) : bool :=
  match s with
  | EmptyString => true
  | String c s' => negb (Ascii.eqb c "-") && dashless s'
  end.

(** The answer of the service behind [tied_rows]: two forwards on the
    field, a forward and a goalkeeper on the bench. *)
Definition tied_response : Response :=
  sample_response 200 "SUCCEEDED"
    [sample_player 1 "Davi" "forward" 10 "PNG/1" "PNG/d";
     sample_player 2 "Enzo" "forward" 8 "PNG/2" "PNG/e"]
    [sample_player 3 "Caio" "forward" 10 "PNG/3" "PNG/f";
     sample_player 4 "Gil" "goalkeeper" 5 "PNG/4" "PNG/g"].

(** * Properties *)

(** ** Results of [apply_result] *)

Lemma apply_result_Forall2 {A B} (f : A -> result B) (l : list A) (out : list B) :
  apply_result f l = Ok out -> Forall2 (fun a b => f a = Ok b) l out.
Proof.
  revert out; induction l as [|a l IH]; intros out H; simpl in H.
  - injection H as <-. constructor.
  - destruct (f a) as [b|e] eqn:Hfa; simpl in H; [|discriminate].
    destruct (apply_result f l) as [bs|e] eqn:Hl; simpl in H; [|discriminate].
    injection H as <-. constructor; auto.
Qed.

Lemma apply_result_total {A B} (f : A -> result B) (l : list A) :
  (forall a, In a l -> exists b, f a = Ok b) ->
  exists out, apply_result f l = Ok out.
Proof.
  induction l as [|a l IH]; intros H; simpl.
  - eexists; reflexivity.
  - destruct (H a (or_introl eq_refl)) as [b ->]; simpl.
    destruct IH as [bs ->]; [intros; apply H; now right|].
    simpl; eexists; reflexivity.
Qed.

Lemma apply_result_raise {A B} (f : A -> result B) (l : list A) (a : A) (e : exn) :
  In a l -> f a = Raise e ->
  exists a' e', In a' l /\ f a' = Raise e' /\ apply_result f l = Raise e'.
Proof.
  induction l as [|a0 l IH]; intros Hin Hf; [destruct Hin|]; simpl.
  destruct (f a0) as [b|e0] eqn:Hfa0; simpl.
  - destruct Hin as [->|Hin]; [congruence|].
    destruct (IH Hin Hf) as (a' & e' & Hin' & Hf' & ->); simpl.
    exists a', e'; split; [now right|split; auto].
  - exists a0, e0; split; [now left|split; auto].
Qed.

Lemma Forall2_map_right {A B C} (P : A -> B -> Prop) (Q : A -> C -> Prop)
  (g : B -> C) (l : list A) (l' : list B) :
  Forall2 P l l' -> (forall a b, P a b -> Q a (g b)) -> Forall2 Q l (map g l').
Proof. induction 1; intros HPQ; simpl; constructor; auto. Qed.

Lemma Forall2_map_eq {A B C} (f : A -> C) (g : B -> C) (l : list A) (l' : list B) :
  Forall2 (fun a b => g b = f a) l l' -> map g l' = map f l.
Proof. induction 1; simpl; congruence. Qed.

Lemma Forall2_In_right {A B} (P : A -> B -> Prop) (l : list A) (l' : list B) :
  Forall2 P l l' -> forall b, In b l' -> exists a, In a l /\ P a b.
Proof.
  induction 1 as [|a b l l' Hab _ IH]; intros c Hc; [destruct Hc|].
  destruct Hc as [<-|Hc].
  - exists a; split; [now left|assumption].
  - destruct (IH c Hc) as (a' & Ha' & HP); exists a'; split; [now right|assumption].
Qed.

(** ** Counting the smaller keys of a list *)

Section Ranking.

Context {A : Type}.
Variable key : A -> Z.

Lemma count_if_cons (f : A -> bool) (a : A) (l : list A) :
  count_if f (a :: l) = (if f a then 1 else 0) + count_if f l.
Proof. unfold count_if; simpl; destruct (f a); simpl; lia. Qed.

Lemma count_if_bounds (f : A -> bool) (l : list A) :
  0 <= count_if f l <= Z.of_nat (length l).
Proof.
  induction l as [|a l IH]; [unfold count_if; simpl; lia|].
  rewrite count_if_cons; simpl length; destruct (f a); lia.
Qed.

Lemma count_if_none (f : A -> bool) (l : list A) :
  (forall b, In b l -> f b = false) -> count_if f l = 0.
Proof.
  induction l as [|a l IH]; intros H; [reflexivity|].
  rewrite count_if_cons, (H a (or_introl eq_refl)), IH; [lia|].
  intros; apply H; now right.
Qed.

Lemma smaller_mono (l : list A) (a b : A) :
  key a <= key b -> smaller key l a <= smaller key l b.
Proof.
  intros Hab; unfold smaller; induction l as [|c l IH];
    [unfold count_if; simpl; lia|].
  rewrite !count_if_cons.
  destruct (Z.ltb_spec (key c) (key a)), (Z.ltb_spec (key c) (key b)); lia.
Qed.

Lemma smaller_strict (l : list A) (a b : A) :
  In a l -> key a < key b -> smaller key l a < smaller key l b.
Proof.
  intros Hin Hab; induction l as [|c l IH]; [destruct Hin|].
  unfold smaller; rewrite !count_if_cons; fold (smaller key l a) (smaller key l b).
  pose proof (smaller_mono l a b ltac:(lia)) as Hle.
  destruct Hin as [->|Hin].
  - destruct (Z.ltb_spec (key a) (key a)), (Z.ltb_spec (key a) (key b)); lia.
  - specialize (IH Hin).
    destruct (Z.ltb_spec (key c) (key a)), (Z.ltb_spec (key c) (key b)); lia.
Qed.

Lemma smaller_below_length (l : list A) (a : A) :
  In a l -> 0 <= smaller key l a < Z.of_nat (length l).
Proof.
  intros Hin; induction l as [|c l IH]; [destruct Hin|].
  unfold smaller; rewrite count_if_cons; fold (smaller key l a); simpl length.
  pose proof (count_if_bounds (fun b => key b <? key a) l) as Hb.
  fold (smaller key l a) in Hb.
  destruct Hin as [->|Hin].
  - rewrite Z.ltb_irrefl; lia.
  - specialize (IH Hin). destruct (key c <? key a); lia.
Qed.

(** With pairwise distinct keys exactly one element has the key of [a]. *)
Lemma count_same_key (l : list A) (a : A) :
  List.NoDup (map key l) -> In a l ->
  count_if (fun b => key b =? key a) l = 1.
Proof.
  induction l as [|c l IH]; intros Hnd Hin; [destruct Hin|].
  simpl in Hnd; apply NoDup_cons_iff in Hnd as [Hc Hnd].
  rewrite count_if_cons.
  destruct Hin as [->|Hin].
  - rewrite Z.eqb_refl.
    assert (count_if (fun b => key b =? key a) l = 0); [|lia].
    apply count_if_none.
    intros b Hb; apply Z.eqb_neq; intros Heq.
    apply Hc; rewrite <- Heq; now apply in_map.
  - rewrite (IH Hnd Hin).
    destruct (Z.eqb_spec (key c) (key a)) as [Heq|]; [|lia].
    exfalso; apply Hc; rewrite Heq; now apply in_map.
Qed.

Lemma in_seq_Z (n : nat) (z : Z) :
  1 <= z <= Z.of_nat n -> In z (map Z.of_nat (seq 1 n)).
Proof.
  intros Hz; apply in_map_iff; exists (Z.to_nat z); split; [lia|].
  apply in_seq; lia.
Qed.

(** The places [1 + smaller key l a] of a list with distinct keys are the
    numbers 1 to [length l], each taken once. *)
Lemma places_dense (l : list A) :
  List.NoDup (map key l) ->
  Permutation (map (fun a => 1 + smaller key l a) l)
              (map Z.of_nat (seq 1 (length l))).
Proof.
  intros Hnd; apply NoDup_Permutation_bis.
  - apply NoDup_map_NoDup_ForallPairs; [|now apply NoDup_map_inv in Hnd].
    intros a b Ha Hb Heq.
    destruct (Z.lt_total (key a) (key b)) as [Hlt|[Hk|Hlt]].
    + pose proof (smaller_strict l a b Ha Hlt); lia.
    + clear Heq; induction l as [|c l IH]; [destruct Ha|].
      simpl in Hnd; apply NoDup_cons_iff in Hnd as [Hc Hnd].
      destruct Ha as [->|Ha], Hb as [->|Hb]; auto.
      * exfalso; apply Hc; rewrite Hk; now apply in_map.
      * exfalso; apply Hc; rewrite <- Hk; now apply in_map.
    + pose proof (smaller_strict l b a Hb Hlt); lia.
  - rewrite !length_map, length_seq; lia.
  - intros z Hz; apply in_map_iff in Hz as (a & <- & Ha).
    apply in_seq_Z; pose proof (smaller_below_length l a Ha); lia.
Qed.

End Ranking.

(** ** Groups and ranks *)

Lemma same_group_refl (r : Row) : same_group r r = true.
Proof. unfold same_group; now rewrite !String.eqb_refl. Qed.

Lemma same_group_eq (a b : Row) :
  same_group a b = true <->
  position (player a) = position (player b) /\ type a = type b.
Proof.
  unfold same_group; rewrite andb_true_iff, !String.eqb_eq; tauto.
Qed.

Lemma group_of_same (data : list Row) (a b : Row) :
  same_group a b = true -> group_of data b = group_of data a.
Proof.
  intros Hab; apply same_group_eq in Hab as [Hp Ht].
  unfold group_of; apply List.filter_ext; intros c.
  unfold same_group; now rewrite Hp, Ht.
Qed.

Lemma in_group_of (data : list Row) (a b : Row) :
  In b (group_of data a) <-> In b data /\ same_group a b = true.
Proof. apply List.filter_In. Qed.

Lemma NoDup_map_filter {A B} (f : A -> B) (p : A -> bool) (l : list A) :
  List.NoDup (map f l) -> List.NoDup (map f (List.filter p l)).
Proof.
  induction l as [|a l IH]; intros Hnd; simpl; [constructor|].
  simpl in Hnd; apply NoDup_cons_iff in Hnd as [Ha Hnd].
  destruct (p a); simpl; auto.
  constructor; auto.
  intros Hin; apply Ha.
  apply in_map_iff in Hin as (b & Hb & Hin); apply List.filter_In in Hin as [Hin _].
  rewrite <- Hb; now apply in_map.
Qed.

Lemma filter_length_Permutation {A} (p : A -> bool) (l l' : list A) :
  Permutation l l' -> length (List.filter p l) = length (List.filter p l').
Proof.
  induction 1 as [|a l l' _ IH|a b l|l l' l'' _ IH1 _ IH2]; simpl.
  - reflexivity.
  - destruct (p a); simpl; congruence.
  - destruct (p a), (p b); reflexivity.
  - congruence.
Qed.

(** With distinct ids the averaged rank is a whole number: one more than
    the number of smaller ids in the group. *)
Lemma rank_of_distinct (data : list Row) (r : Row) :
  List.NoDup (map pid data) -> In r data ->
  rank_of data r = 1 + smaller pid (group_of data r) r.
Proof.
  intros Hnd Hin; unfold rank_of, rank2.
  change (count_if (fun r' => id (player r') <? id (player r)) (group_of data r))
    with (smaller pid (group_of data r) r).
  change (fun r' => id (player r') =? id (player r))
    with (fun r' => pid r' =? pid r).
  rewrite (count_same_key pid (group_of data r) r).
  - replace (2 * smaller pid (group_of data r) r + 1 + 1)
      with ((1 + smaller pid (group_of data r) r) * 2) by lia.
    apply Z.quot_mul; lia.
  - now apply NoDup_map_filter.
  - apply in_group_of; split; [assumption|apply same_group_refl].
Qed.

Lemma rank_of_Permutation (data data' : list Row) (r : Row) :
  Permutation data data' -> rank_of data' r = rank_of data r.
Proof.
  intros Hp; unfold rank_of, rank2, group_of, count_if.
  assert (Hg : Permutation (List.filter (same_group r) data)
                           (List.filter (same_group r) data')).
  { clear -Hp. induction Hp as [|a l l' _ IH|a b l|l l' l'' _ IH1 _ IH2]; simpl.
    - constructor.
    - destruct (same_group r a); auto.
    - destruct (same_group r a), (same_group r b); auto; apply perm_swap.
    - now transitivity (List.filter (same_group r) l'). }
  now rewrite !(filter_length_Permutation _ _ _ Hg).
Qed.

(** What [place] writes in a row. *)
Lemma place_ok (pos : gmap string Coord) (data : list Row) (r : Row) (o : PlotRow) :
  place pos data r = Ok o ->
  row o = r /\ r_name o = name (player r) /\ rank o = rank_of data r
  /\ plot o = plot_key (type r) (position (player r)) (rank_of data r)
  /\ pos !! plot o = Some {| pos_x := x o; pos_y := y o |}
  /\ r_captain o = None.
Proof.
  unfold place, lookup_pos.
  destruct (pos !! plot_key (type r) (position (player r)) (rank_of data r))
    as [[cx cy]|] eqn:Hk; simpl; [|discriminate].
  intros H; injection H as <-; simpl; auto 10.
Qed.

Lemma transform_data_rows (pos : gmap string Coord) (data : list Row)
  (captain : bool) (out : list PlotRow) :
  transform_data pos data captain = Ok out ->
  exists rows, apply_result (place pos data) data = Ok rows
    /\ out = if captain
             then map (mark_captain
                         (Series_max (map (fun r => points (player (row r))) rows)))
                      rows
             else rows.
Proof.
  unfold transform_data; destruct data as [|r0 data]; [discriminate|].
  destruct (apply_result (place pos (r0 :: data)) (r0 :: data)) as [rows|e];
    simpl; [|discriminate].
  intros H; exists rows; split; [reflexivity|].
  destruct captain; now injection H as <-.
Qed.

(** Every row of the result comes from the row of the input at the same
    place, with the columns of [place]; marking the captain changes the
    name and the captain flag only. *)
Lemma transform_data_Forall2 (pos : gmap string Coord) (data : list Row)
  (captain : bool) (out : list PlotRow) :
  transform_data pos data captain = Ok out ->
  Forall2 (fun r o =>
    row o = r /\ rank o = rank_of data r
    /\ plot o = plot_key (type r) (position (player r)) (rank_of data r)
    /\ pos !! plot o = Some {| pos_x := x o; pos_y := y o |}) data out.
Proof.
  intros H; apply transform_data_rows in H as (rows & Hrows & ->).
  apply apply_result_Forall2 in Hrows.
  destruct captain.
  - eapply Forall2_map_right; [exact Hrows|].
    intros r o Ho; apply place_ok in Ho; simpl; tauto.
  - rewrite <- (map_id rows).
    eapply Forall2_map_right; [exact Hrows|].
    intros r o Ho; apply place_ok in Ho; tauto.
Qed.

(** ** The line-up request *)

(** C8: the request stops the script exactly when the HTTP status code is
    300 or more or the logical status is not ["SUCCEEDED"]; the generic
    message is then shown once and no frame is returned, so that [main]
    halts without a chart. Otherwise the records of ["players"] followed by
    those of ["bench"] are returned, each with its ["type"]. *)
Theorem get_line_up_fails_fast (res : Response) :
  (snd (get_line_up res) = Stopped <->
   300 <= status_code res \/ status res <> "SUCCEEDED")
  /\ (snd (get_line_up res) = Stopped ->
      st_errors (fst (get_line_up res)) = [ERROR_MSG]
      /\ forall (Image : Type) (identify : list Byte.byte -> option Image)
           (str_float : Q -> string) (session_get : string -> result Stream)
           (pos : gmap string Coord) (pitch : Image) (game : Game)
           (sched : Schedule),
           snd (main identify str_float session_get pos pitch game res sched)
           = Halted)
  /\ (snd (get_line_up res) <> Stopped ->
      get_line_up res =
      ([], Returned (map (tag "players") (out_players (output res))
                     ++ map (tag "bench") (out_bench (output res)))%list)).
Proof.
  unfold main, get_line_up.
  destruct (Z.leb_spec 300 (status_code res)) as [Hc|Hc]; simpl.
  - repeat split; auto; try tauto.
  - destruct (String.eqb_spec (status res) "SUCCEEDED") as [Hs|Hs]; simpl.
    + repeat split; try discriminate; auto.
      intros [H|H]; [lia|contradiction].
    + repeat split; auto; try tauto.
Qed.

Lemma get_line_up_fails_fast_witness :
  snd (get_line_up (sample_response 503 "SUCCEEDED" midfield [])) = Stopped
  /\ st_errors (fst (get_line_up (sample_response 200 "FAILED" midfield [])))
     = [ERROR_MSG]
  /\ get_line_up midfield_response = ([], Returned midfield_rows).
Proof.
  split; [|split].
  - apply (proj1 (get_line_up_fails_fast (sample_response 503 "SUCCEEDED" midfield []))).
    left; simpl; lia.
  - apply (proj1 (proj2 (get_line_up_fails_fast
                           (sample_response 200 "FAILED" midfield [])))).
    reflexivity.
  - apply (proj2 (proj2 (get_line_up_fails_fast midfield_response))).
    simpl; discriminate.
Defined.

(** ** Ranks *)





(** ** Plot keys *)




(** ** The captain *)

Lemma Qmax_cases (a b : Q) : Qmax a b = a \/ Qmax a b = b.
Proof. unfold Qmax, GenericMinMax.gmax; destruct (a ?= b)%Q; auto. Qed.

Lemma fold_Qmax_In (ps : list Q) (p : Q) : In (fold_left Qmax ps p) (p :: ps).
Proof.
  revert p; induction ps as [|q ps IH]; intros p; simpl; [now left|].
  destruct (IH (Qmax p q)) as [H|H]; [|now right; right].
  rewrite <- H; destruct (Qmax_cases p q) as [->| ->]; auto.
Qed.

Lemma fold_Qmax_upper (ps : list Q) (p q : Q) :
  In q (p :: ps) -> (q <= fold_left Qmax ps p)%Q.
Proof.
  revert p q; induction ps as [|q' ps IH]; intros p q Hq; simpl.
  - destruct Hq as [->|[]]; apply Qle_refl.
  - assert (Hm : (Qmax p q' <= fold_left Qmax ps (Qmax p q'))%Q)
      by (apply IH; now left).
    destruct Hq as [->|[->|Hq]].
    + eapply Qle_trans; [apply Q.le_max_l|exact Hm].
    + eapply Qle_trans; [apply Q.le_max_r|exact Hm].
    + apply IH; now right.
Qed.

Lemma filter_length_Forall2 {A B} (f : A -> bool) (g : B -> bool)
  (l : list A) (l' : list B) :
  Forall2 (fun a b => g b = f a) l l' ->
  length (List.filter g l') = length (List.filter f l).
Proof.
  induction 1 as [|a b l l' Hab _ IH]; simpl; [reflexivity|].
  rewrite Hab; destruct (f a); simpl; congruence.
Qed.

(** C4: with the captain enabled, there is one top score for the whole
    frame, rows of ["players"] and of ["bench"] alike: it is the score of
    some row and no row scores more. A row is flagged captain exactly when
    its points equal the top score, its name then gets the prefix ["(C) "]
    and is left alone otherwise, and the captains are as many as the rows
    that reach the top score. *)
Theorem captain_marks_every_top_scorer (pos : gmap string Coord)
  (data : list Row) (out : list PlotRow) :
  transform_data pos data true = Ok out ->
  exists top : Q,
    In top (map (fun r => points (player r)) data)
    /\ (forall r, In r data -> (points (player r) <= top)%Q)
    /\ Forall2 (fun r o =>
         row o = r
         /\ r_captain o = Some (Qeq_bool (points (player r)) top)
         /\ r_name o = if Qeq_bool (points (player r)) top
                       then ("(C) " ++ name (player r))%string
                       else name (player r)) data out
    /\ length (List.filter is_captain out)
       = length (List.filter (fun r => Qeq_bool (points (player r)) top) data).
Proof.
  intros H.
  destruct data as [|r0 rs]; [discriminate H|].
  remember (r0 :: rs) as data eqn:Edata.
  apply transform_data_rows in H as (rows & Hrows & ->).
  apply apply_result_Forall2 in Hrows.
  assert (Hpts : map (fun o => points (player (row o))) rows
                 = map (fun r => points (player r)) data).
  { apply (Forall2_map_eq (fun r => points (player r))
             (fun o => points (player (row o)))).
    eapply Forall2_impl; [exact Hrows|].
    intros r o Ho; apply place_ok in Ho as (-> & _); reflexivity. }
  rewrite Hpts.
  destruct (map (fun r => points (player r)) data) as [|p ps] eqn:Hdata.
  { subst data; discriminate Hdata. }
  simpl Series_max.
  set (top := fold_left Qmax ps p).
  assert (Hrow : Forall2 (fun r o =>
            row o = r
            /\ r_captain o = Some (Qeq_bool (points (player r)) top)
            /\ r_name o = if Qeq_bool (points (player r)) top
                          then ("(C) " ++ name (player r))%string
                          else name (player r)) data
            (map (mark_captain (Some top)) rows)).
  { eapply Forall2_map_right; [exact Hrows|].
    intros r o Ho; apply place_ok in Ho as (Hr & Hn & _); simpl.
    now rewrite Hr, Hn. }
  exists top; split; [apply fold_Qmax_In|split; [|split]].
  - intros r Hr; apply fold_Qmax_upper; rewrite <- Hdata.
    now apply (in_map (fun r => points (player r))).
  - exact Hrow.
  - apply filter_length_Forall2.
    eapply Forall2_impl; [exact Hrow|].
    intros r o (_ & Hc & _); unfold is_captain; now rewrite Hc.
Qed.

Lemma captain_marks_every_top_scorer_witness :
  exists out, transform_data tied_pos tied_rows true = Ok out
    /\ exists top : Q,
         In top (map (fun r => points (player r)) tied_rows)
         /\ (forall r, In r tied_rows -> (points (player r) <= top)%Q)
         /\ Forall2 (fun r o =>
              row o = r
              /\ r_captain o = Some (Qeq_bool (points (player r)) top)
              /\ r_name o = if Qeq_bool (points (player r)) top
                            then ("(C) " ++ name (player r))%string
                            else name (player r)) tied_rows out
         /\ length (List.filter is_captain out)
            = length (List.filter
                        (fun r => Qeq_bool (points (player r)) top) tied_rows).
Proof.
  eexists; split; [vm_compute; reflexivity|].
  apply (captain_marks_every_top_scorer tied_pos tied_rows).
  vm_compute; reflexivity.
Defined.

(** Points 10, 8, 10, 5: the two players with 10 points are captains, one
    of them on the bench. *)
Example tied_captains :
  exists out, transform_data tied_pos tied_rows true = Ok out
    /\ map is_captain out = [true; false; true; false]
    /\ map r_name out = ["(C) Davi"; "Enzo"; "(C) Caio"; "Gil"]
    /\ length (List.filter is_captain out) = 2%nat.
Proof. eexists; split; [vm_compute; reflexivity|repeat split]. Qed.

(** Without the captain no row is flagged and no name is changed. *)
Lemma no_captain_column (pos : gmap string Coord) (data : list Row)
  (out : list PlotRow) :
  transform_data pos data false = Ok out ->
  Forall2 (fun r o => r_captain o = None /\ r_name o = name (player r)) data out.
Proof.
  intros H; apply transform_data_rows in H as (rows & Hrows & ->).
  apply apply_result_Forall2 in Hrows.
  eapply Forall2_impl; [exact Hrows|].
  intros r o Ho; apply place_ok in Ho; tauto.
Qed.

(** ** Missing plot keys *)

Lemma place_raise (pos : gmap string Coord) (data : list Row) (r : Row) (e : exn) :
  place pos data r = Raise e ->
  pos !! plot_of data r = None /\ e = KeyError (plot_of data r).
Proof.
  unfold place, lookup_pos, plot_of.
  destruct (pos !! plot_key (type r) (position (player r)) (rank_of data r));
    simpl; [discriminate|].
  intros H; injection H as <-; auto.
Qed.

Lemma place_missing (pos : gmap string Coord) (data : list Row) (r : Row) :
  pos !! plot_of data r = None ->
  place pos data r = Raise (KeyError (plot_of data r)).
Proof. unfold place, lookup_pos, plot_of; now intros ->. Qed.

Lemma place_present (pos : gmap string Coord) (data : list Row) (r : Row) :
  is_Some (pos !! plot_of data r) -> exists o, place pos data r = Ok o.
Proof.
  unfold place, lookup_pos, plot_of; intros [c ->]; simpl; eexists; reflexivity.
Qed.

(** C5: when the plot key of some row is not in the table, the layout
    raises a [KeyError] that carries a key which a row of the frame has and
    the table lacks, and returns no frame. A frame that is returned has a
    row for every row of the input, in the same order, placed at the
    table's entry for its key. When the frame has a row and every key is in
    the table, the layout returns. *)
Theorem missing_plot_key_raises (pos : gmap string Coord) (data : list Row)
  (captain : bool) :
  (forall r, In r data -> pos !! plot_of data r = None ->
     exists r', In r' data /\ pos !! plot_of data r' = None
       /\ transform_data pos data captain = Raise (KeyError (plot_of data r')))
  /\ (forall out, transform_data pos data captain = Ok out ->
        Forall2 (fun r o =>
          row o = r /\ plot o = plot_of data r
          /\ pos !! plot_of data r = Some {| pos_x := x o; pos_y := y o |})
          data out)
  /\ (data <> [] ->
      (forall r, In r data -> is_Some (pos !! plot_of data r)) ->
      exists out, transform_data pos data captain = Ok out).
Proof.
  split; [|split].
  - intros r Hr Hnone.
    destruct (apply_result_raise (place pos data) data r _ Hr
                (place_missing pos data r Hnone)) as (r' & e' & Hr' & He' & Happ).
    apply place_raise in He' as [Hn ->].
    exists r'; split; [assumption|split; [assumption|]].
    unfold transform_data; destruct data; [destruct Hr|].
    now rewrite Happ.
  - intros out H; apply transform_data_Forall2 in H.
    eapply Forall2_impl; [exact H|].
    intros r o (Hr & _ & Hp & Hl); unfold plot_of.
    rewrite <- Hp; auto.
  - intros Hne Hall.
    destruct (apply_result_total (place pos data) data) as [rows Hrows].
    { intros r Hr; apply place_present; auto. }
    unfold transform_data; destruct data; [contradiction|].
    rewrite Hrows; simpl; destruct captain; eexists; reflexivity.
Qed.

Lemma missing_plot_key_raises_witness :
  (exists r', In r' midfield_rows
     /\ starters_pos !! plot_of midfield_rows r' = None
     /\ transform_data starters_pos midfield_rows true
        = Raise (KeyError (plot_of midfield_rows r')))
  /\ exists out, transform_data midfield_pos midfield_rows true = Ok out.
Proof.
  split.
  - apply (proj1 (missing_plot_key_raises starters_pos midfield_rows true)
             (tag "players" (sample_player 103 "Cris" "midfielder" 5 "PNG/103" "PNG/c"))).
    + right; right; left; reflexivity.
    + vm_compute; reflexivity.
  - apply (proj2 (proj2 (missing_plot_key_raises midfield_pos midfield_rows true))).
    + discriminate.
    + intros r [<-|[<-|[<-|[]]]]; vm_compute; eexists; reflexivity.
Defined.

(** ** The thread pool *)

Section PoolFacts.

Variable session_get : string -> result Stream.
Variable rows : list PlotRow.

Lemma remove_nth_Permutation {A} (j : nat) (l : list A) (d : A) :
  (j < length l)%nat -> Permutation l (nth j l d :: remove_nth j l).
Proof.
  revert j; induction l as [|a l IH]; intros j Hj; simpl in Hj; [lia|].
  destruct j as [|j]; simpl; [reflexivity|].
  rewrite perm_swap; constructor; apply IH; lia.
Qed.

Lemma task_ends {A} (q run rest fin : list A) (t : A) :
  Permutation run (t :: rest) ->
  Permutation (q ++ rest ++ fin ++ [t])%list (q ++ run ++ fin)%list.
Proof.
  intros H; apply Permutation_app_head; rewrite H; simpl.
  rewrite app_assoc, Permutation_app_comm; reflexivity.
Qed.

Lemma pool_inv_submit : pool_inv session_get rows (submit_all rows).
Proof.
  split; simpl.
  - now rewrite app_nil_r.
  - unfold expected_slots; apply list_eq; intros i.
    rewrite list_lookup_imap.
    destruct (rows !! i) as [r|] eqn:Hi; simpl.
    + apply lookup_replicate_2; now apply lookup_lt_Some in Hi.
    + apply lookup_ge_None; rewrite length_replicate.
      now apply lookup_ge_None in Hi.
Qed.

Lemma pool_inv_refill (k : nat) (p : Pool) :
  pool_inv session_get rows p -> pool_inv session_get rows (refill k p).
Proof.
  intros [Hperm Hslots]; split; simpl; [|assumption].
  rewrite <- Hperm.
  rewrite <- (firstn_skipn (k - length (running p)) (queue p)) at 3.
  rewrite <- !app_assoc.
  rewrite (Permutation_app_comm (skipn _ _)).
  rewrite <- !app_assoc.
  rewrite Permutation_app_comm, <- !app_assoc.
  apply Permutation_app_head.
  rewrite Permutation_app_comm, <- !app_assoc.
  reflexivity.
Qed.

Lemma pool_inv_task_row (p : Pool) (t : nat) :
  pool_inv session_get rows p -> In t (running p) -> is_Some (rows !! t).
Proof.
  intros [Hperm _] Ht; apply lookup_lt_is_Some.
  assert (Hin : In t (seq 0 (length rows))).
  { eapply Permutation_in; [exact Hperm|].
    apply in_or_app; right; apply in_or_app; now left. }
  apply in_seq in Hin; lia.
Qed.

Lemma expected_slots_insert (fin : list nat) (t : nat) (r : PlotRow) :
  rows !! t = Some r ->
  <[t := Some (transform_row session_get r)]> (expected_slots session_get rows fin)
  = expected_slots session_get rows (fin ++ [t]).
Proof.
  intros Ht; unfold expected_slots; apply list_eq; intros i.
  destruct (decide (i = t)) as [->|Hne].
  - rewrite list_lookup_insert_eq
      by (rewrite length_imap; now apply lookup_lt_Some in Ht).
    rewrite list_lookup_imap, Ht; simpl.
    rewrite bool_decide_eq_true_2; [reflexivity|].
    apply elem_of_app; right; apply list_elem_of_singleton; reflexivity.
  - rewrite list_lookup_insert_ne by congruence.
    rewrite !list_lookup_imap; destruct (rows !! i); simpl; [|reflexivity].
    rewrite (bool_decide_ext (i ∈ fin) (i ∈ (fin ++ [t])%list)); [reflexivity|].
    rewrite elem_of_app, list_elem_of_singleton; tauto.
Qed.

Lemma pool_inv_complete (c : nat) (p : Pool) :
  pool_inv session_get rows p ->
  pool_inv session_get rows (complete session_get rows c p).
Proof.
  intros Hinv; unfold complete.
  destruct (running p) as [|t0 run] eqn:Hrun; [assumption|].
  set (j := (c mod length (t0 :: run))%nat).
  assert (Hj : (j < length (t0 :: run))%nat)
    by (apply Nat.mod_upper_bound; simpl; lia).
  pose proof (remove_nth_Permutation j (t0 :: run) t0 Hj) as Hrm.
  assert (Ht : is_Some (rows !! nth j (t0 :: run) t0)).
  { apply (pool_inv_task_row p); [assumption|].
    rewrite Hrun; apply nth_In; exact Hj. }
  destruct Ht as [r Ht]; rewrite Ht.
  destruct Hinv as [Hperm Hslots]; rewrite Hrun in Hperm.
  split; [cbn [queue running finished]|cbn [slots finished]].
  - etransitivity; [apply task_ends; exact Hrm|exact Hperm].
  - rewrite Hslots; now apply expected_slots_insert.
Qed.

(** With a worker in the pool, a step ends one task as long as a task
    is not finished. *)
Lemma pool_step_progress (k c : nat) (p : Pool) :
  pool_inv session_get rows p -> (0 < k)%nat ->
  (length (finished p) < length rows)%nat ->
  length (finished (complete session_get rows c (refill k p)))
  = S (length (finished p)).
Proof.
  intros [Hperm _] Hk Hlt.
  apply Permutation_length in Hperm.
  rewrite !length_app, length_seq in Hperm.
  unfold complete.
  destruct (running (refill k p)) as [|t0 run] eqn:Hrun.
  - exfalso; unfold refill in Hrun; simpl in Hrun.
    apply app_eq_nil in Hrun as [Hr Hq].
    rewrite Hr in *; simpl in *.
    rewrite Nat.sub_0_r in Hq.
    destruct (queue p); simpl in *; [lia|].
    destruct k; [lia|discriminate].
  - simpl; rewrite length_app; simpl; lia.
Qed.

Lemma run_pool_spec (k : nat) (fuel : nat) :
  (0 < k)%nat ->
  forall (sched : list nat) (p : Pool),
    pool_inv session_get rows p ->
    (length (finished p) + fuel = length rows)%nat ->
    pool_inv session_get rows (run_pool session_get k rows sched fuel p)
    /\ length (finished (run_pool session_get k rows sched fuel p))
       = length rows.
Proof.
  intros Hk; induction fuel as [|fuel IH]; intros sched p Hinv Hlen; simpl.
  - split; [assumption|lia].
  - apply IH.
    + apply pool_inv_complete, pool_inv_refill, Hinv.
    + rewrite pool_step_progress; [lia|assumption|assumption|lia].
Qed.

(** When the pool has run, every task is finished and every future
    holds what [transform_row] returns for its row. *)
Lemma executor_spec (k : nat) (sched : list nat) :
  (0 < k)%nat ->
  Permutation (finished (executor session_get k rows sched))
              (seq 0 (length rows))
  /\ slots (executor session_get k rows sched)
     = map (fun r => Some (transform_row session_get r)) rows.
Proof.
  intros Hk; unfold executor.
  destruct (run_pool_spec k (length rows) Hk sched (submit_all rows))
    as [[Hperm Hslots] Hlen]; [apply pool_inv_submit|reflexivity|].
  set (p := run_pool session_get k rows sched (length rows) (submit_all rows)) in *.
  assert (Hfin : Permutation (finished p) (seq 0 (length rows))).
  { pose proof (Permutation_length Hperm) as Hl.
    rewrite !length_app, length_seq in Hl.
    destruct (queue p); [|simpl in Hl; lia].
    destruct (running p); [|simpl in Hl; lia].
    exact Hperm. }
  split; [exact Hfin|].
  rewrite Hslots; unfold expected_slots; apply list_eq; intros i.
  rewrite list_lookup_imap.
  change (map ?f rows) with (f <$> rows); rewrite list_lookup_fmap.
  destruct (rows !! i) as [r|] eqn:Hi; simpl; [|reflexivity].
  rewrite bool_decide_eq_true_2; [reflexivity|].
  apply list_elem_of_In; eapply Permutation_in;
    [symmetry; exact Hfin|].
  apply in_seq; apply lookup_lt_Some in Hi; lia.
Qed.

End PoolFacts.

Lemma omap_seq_lookup {A B} (g : nat -> option B) (f : A -> B) (l : list A) (s : nat) :
  (forall t a, l !! t = Some a -> g (s + t)%nat = Some (f a)) ->
  omap g (seq s (length l)) = map f l.
Proof.
  revert s; induction l as [|a l IH]; intros s H; simpl; [reflexivity|].
  specialize (H 0%nat a eq_refl) as H0; rewrite Nat.add_0_r in H0; rewrite H0.
  f_equal; apply IH; intros t b Ht.
  replace (S s + t)%nat with (s + S t)%nat by lia; now apply H.
Qed.

Lemma future_result_executor (session_get : string -> result Stream)
  (rows : list PlotRow) (k : nat) (sched : list nat) (t : nat) (r : PlotRow) :
  (0 < k)%nat -> rows !! t = Some r ->
  future_result (executor session_get k rows sched) t
  = Some (transform_row session_get r).
Proof.
  intros Hk Ht; unfold future_result.
  rewrite (proj2 (executor_spec session_get rows k sched Hk)).
  change (map ?f rows) with (f <$> rows); rewrite list_lookup_fmap, Ht.
  reflexivity.
Qed.

Lemma iterate_set_Permutation {A} (picks : list nat) (s : list A) :
  Permutation (iterate_set (length s) picks s) s.
Proof.
  remember (length s) as n eqn:Hn; revert picks s Hn.
  induction n as [|n IH]; intros picks s Hn.
  - destruct s; [reflexivity|discriminate].
  - destruct s as [|a0 s]; [discriminate|].
    cbn [iterate_set].
    set (j := (hd 0%nat picks mod length (a0 :: s))%nat).
    assert (Hj : (j < length (a0 :: s))%nat)
      by (apply Nat.mod_upper_bound; simpl; lia).
    pose proof (remove_nth_Permutation j (a0 :: s) a0 Hj) as Hp.
    etransitivity; [|symmetry; exact Hp].
    constructor; apply IH.
    apply Permutation_length in Hp; simpl in Hp, Hn; lia.
Qed.

(** Every task that ended is yielded once. *)
Lemma yield_order_Permutation (fin : list nat) (sched : Schedule) :
  Permutation (yield_order fin sched) fin.
Proof.
  unfold yield_order; rewrite iterate_set_Permutation.
  now rewrite firstn_skipn.
Qed.

(** The completed futures are the results of all the rows, in some order. *)
Lemma as_completed_Permutation (session_get : string -> result Stream)
  (rows : list PlotRow) (k : nat) (e : list nat) (sched : Schedule) :
  (0 < k)%nat ->
  Permutation (as_completed (executor session_get k rows e) sched)
              (map (transform_row session_get) rows).
Proof.
  intros Hk; unfold as_completed.
  rewrite yield_order_Permutation.
  rewrite (proj1 (executor_spec session_get rows k e Hk)).
  rewrite (omap_seq_lookup _ (transform_row session_get) rows 0); [reflexivity|].
  intros t r Ht; simpl; now apply future_result_executor.
Qed.

(** C9: whatever the number of workers, one or five or any other, and
    however the tasks are scheduled, the futures hold the same results:
    the future of a row holds what [transform_row] returns for that row,
    that is the streams behind its two addresses. *)
Theorem fetch_independent_of_pool_size (session_get : string -> result Stream)
  (rows : list PlotRow) (k1 k2 : nat) (s1 s2 : list nat) :
  (0 < k1)%nat -> (0 < k2)%nat ->
  slots (executor session_get k1 rows s1) = slots (executor session_get k2 rows s2)
  /\ forall t r, rows !! t = Some r ->
       future_result (executor session_get k1 rows s1) t
       = Some (transform_row session_get r)
       /\ forall ph bd,
            session_get (photo (player (row r))) = Ok ph ->
            session_get (club_badge (player (row r))) = Ok bd ->
            future_result (executor session_get k1 rows s1) t
            = Some (Ok {| laid := r; f_photo := ph; f_club_badge := bd |}).
Proof.
  intros H1 H2; split.
  - now rewrite (proj2 (executor_spec session_get rows k1 s1 H1)),
                (proj2 (executor_spec session_get rows k2 s2 H2)).
  - intros t r Ht.
    rewrite (future_result_executor session_get rows k1 s1 t r H1 Ht).
    split; [reflexivity|].
    intros ph bd Hph Hbd; unfold transform_row, download_image.
    now rewrite Hph, Hbd.
Qed.

Lemma fetch_independent_of_pool_size_witness :
  slots (executor sample_get 1 midfield_laid [])
  = slots (executor sample_get 5 midfield_laid [2%nat; 0%nat])
  /\ future_result (executor sample_get 1 midfield_laid []) 1
     = option_map (transform_row sample_get) (midfield_laid !! 1%nat).
Proof.
  split.
  - apply (fetch_independent_of_pool_size sample_get midfield_laid 1 5
             [] [2%nat; 0%nat]); lia.
  - destruct (midfield_laid !! 1%nat) as [r|] eqn:Hr; [|discriminate Hr].
    exact (proj1 (proj2 (fetch_independent_of_pool_size sample_get midfield_laid
                           1 5 [] [2%nat; 0%nat] ltac:(lia) ltac:(lia))
                    1%nat r Hr)).
Defined.

(** ** Drawing one player *)

Section DrawingFacts.

Context {Image : Type}.
Variable identify : list Byte.byte -> option Image.
Variable str_float : Q -> string.

(** No image is found in a file without a byte. *)
Hypothesis identify_nil : identify [] = None.

Lemma Image_open_Some (fp : Stream) (im : Image) :
  identify fp = Some im -> Image_open identify fp = (Ok im, []).
Proof. unfold Image_open; now intros ->. Qed.

Lemma Image_open_None (fp : Stream) :
  identify fp = None ->
  Image_open identify fp = (Raise UnidentifiedImageError, []).
Proof. unfold Image_open; now intros ->. Qed.

Lemma add_player_image_both (fig : Figure Image) (px py : Q) (nm : string)
  (ph lg : Stream) (pr : Q) (im li : Image) :
  identify ph = Some im -> identify lg = Some li ->
  add_player_image identify str_float fig px py nm ph lg pr
  = (extend fig [centered im px py; badge li px py]
       [marker str_float px py nm pr], Ok tt).
Proof.
  intros Hp Hl; unfold add_player_image, add_images.
  rewrite (Image_open_Some ph im Hp), (Image_open_Some lg li Hl).
  unfold extend, add_trace, add_layout_image; simpl.
  now rewrite <- app_assoc.
Qed.

Lemma add_player_image_logo_only (fig : Figure Image) (px py : Q) (nm : string)
  (ph lg : Stream) (pr : Q) (li : Image) :
  identify ph = None -> identify lg = Some li ->
  add_player_image identify str_float fig px py nm ph lg pr
  = (extend fig [centered li px py] [marker str_float px py nm pr], Ok tt).
Proof.
  intros Hp Hl; unfold add_player_image, add_images, logo_only.
  now rewrite (Image_open_None ph Hp), (Image_open_Some lg li Hl).
Qed.

Lemma add_player_image_no_logo (fig : Figure Image) (px py : Q) (nm : string)
  (ph lg : Stream) (pr : Q) :
  identify lg = None ->
  add_player_image identify str_float fig px py nm ph lg pr
  = (extend fig match identify ph with
                | Some im => [centered im px py]
                | None => []
                end [], Raise UnidentifiedImageError).
Proof using identify_nil.
  intros Hl; unfold add_player_image, add_images, logo_only.
  destruct (identify ph) as [im|] eqn:Hp.
  - rewrite (Image_open_Some ph im Hp), (Image_open_None lg Hl).
    rewrite (Image_open_None [] identify_nil).
    unfold extend, add_layout_image; simpl; now rewrite app_nil_r.
  - rewrite (Image_open_None ph Hp), (Image_open_None lg Hl).
    unfold extend; simpl; rewrite !app_nil_r; now destruct fig.
Qed.

(** A row whose logo is an image adds its [overlays] and its
    [hit_target]. *)
Lemma add_player_image_drawable (fig : Figure Image) (r : Fetched) :
  is_Some (identify (f_club_badge r)) ->
  add_player_image identify str_float fig (x (laid r)) (y (laid r))
    (r_name (laid r)) (f_photo r) (f_club_badge r)
    (price (player (row (laid r))))
  = (extend fig (overlays identify r) [hit_target str_float r], Ok tt).
Proof.
  intros [li Hl]; unfold overlays, hit_target; rewrite Hl.
  destruct (identify (f_photo r)) as [im|] eqn:Hp.
  - now apply add_player_image_both.
  - now apply add_player_image_logo_only.
Qed.

Lemma extend_extend (fig : Figure Image) (i1 i2 : list (LayoutImage Image))
  (t1 t2 : list Scatter) :
  extend (extend fig i1 t1) i2 t2 = extend fig (i1 ++ i2) (t1 ++ t2).
Proof. unfold extend; simpl; now rewrite <- !app_assoc. Qed.

Lemma extend_nil (fig : Figure Image) : extend fig [] [] = fig.
Proof. unfold extend; rewrite !app_nil_r; now destruct fig. Qed.

(** The loop over results that are all drawable adds the layers of the
    rows in the order of the results. *)
Lemma draw_players_drawable (done : list (result Fetched)) (fig : Figure Image) :
  Forall (drawable identify) done ->
  draw_players identify str_float fig done
  = (extend fig (flat_map (overlays identify) (fetched_rows done))
       (map (hit_target str_float) (fetched_rows done)), Ok tt).
Proof.
  intros H; revert fig; induction H as [|d done Hd _ IH]; intros fig; simpl.
  - now rewrite extend_nil.
  - destruct d as [r|e]; [|destruct Hd]; simpl in Hd.
    rewrite (add_player_image_drawable fig r Hd), IH, extend_extend.
    reflexivity.
Qed.

(** A result that is an exception, or a row whose logo is no image,
    ends the loop with an exception. *)
Lemma draw_players_raise (done : list (result Fetched)) (fig : Figure Image) :
  ~ Forall (drawable identify) done ->
  exists fig' e, draw_players identify str_float fig done = (fig', Raise e).
Proof using identify_nil.
  revert fig; induction done as [|d done IH]; intros fig Hn.
  - exfalso; apply Hn; constructor.
  - destruct d as [r|e]; simpl; [|eauto].
    destruct (identify (f_club_badge r)) as [li|] eqn:Hl.
    + rewrite (add_player_image_drawable fig r) by (rewrite Hl; eauto).
      apply IH; intros Hall; apply Hn; constructor; [|assumption].
      simpl; rewrite Hl; eauto.
    + rewrite add_player_image_no_logo by assumption; eauto.
Qed.

Lemma draw_players_ok (done : list (result Fetched)) (fig fig' : Figure Image) :
  draw_players identify str_float fig done = (fig', Ok tt) ->
  Forall (drawable identify) done.
Proof using identify_nil.
  intros H.
  assert (Hdec : forall d, {drawable identify d} + {~ drawable identify d}).
  { intros [r|e]; simpl; [|right; tauto].
    destruct (identify (f_club_badge r)); [left; eauto|right].
    intros [? ?]; discriminate. }
  destruct (List.Forall_dec _ Hdec done) as [Hall|Hn]; [assumption|].
  destruct (draw_players_raise done fig Hn) as (f & e & He); congruence.
Qed.

End DrawingFacts.

(** ** The scene *)

Section SceneFacts.

Context {Image : Type}.
Variable identify : list Byte.byte -> option Image.
Variable str_float : Q -> string.
Hypothesis identify_nil : identify [] = None.
Variable session_get : string -> result Stream.
Variable pitch : Image.

Lemma compose_ok (k : nat) (sched : Schedule) (data : list PlotRow)
  (fig : Figure Image) :
  compose identify str_float session_get pitch k sched data = (fig, Ok tt) ->
  Forall (drawable identify)
    (as_completed (executor session_get k data (ends sched)) sched)
  /\ fig = extend (pitch_only pitch)
             (flat_map (overlays identify) (drawn session_get k sched data))
             (map (hit_target str_float) (drawn session_get k sched data)).
Proof using identify_nil.
  unfold compose; intros H.
  pose proof (draw_players_ok identify str_float identify_nil _ _ _ H) as Hall.
  split; [exact Hall|].
  rewrite (draw_players_drawable identify str_float _ _ Hall) in H.
  now injection H as <-.
Qed.

Lemma drawable_rows (done : list (result Fetched)) :
  Forall (drawable identify) done ->
  Forall (fun r => is_Some (identify (f_club_badge r))) (fetched_rows done).
Proof.
  induction 1 as [|d done Hd _ IH]; simpl; [constructor|].
  destruct d as [r|e]; [|destruct Hd]; simpl; constructor; auto.
Qed.

(** The rows that were fetched are the rows that were laid out. *)
Lemma fetched_rows_laid (data : list PlotRow) :
  Forall (drawable identify) (map (transform_row session_get) data) ->
  map laid (fetched_rows (map (transform_row session_get) data)) = data.
Proof.
  induction data as [|d data IH]; simpl; intros H; [reflexivity|].
  apply Forall_cons_iff in H as [Hd H].
  unfold transform_row, download_image in *.
  destruct (session_get (photo (player (row d)))); simpl in *; [|destruct Hd].
  destruct (session_get (club_badge (player (row d)))); simpl in *;
    [|destruct Hd].
  now rewrite IH.
Qed.

Lemma drawn_Permutation (k : nat) (sched : Schedule) (data : list PlotRow) :
  (0 < k)%nat ->
  Forall (drawable identify)
    (as_completed (executor session_get k data (ends sched)) sched) ->
  Permutation (map laid (drawn session_get k sched data)) data.
Proof.
  intros Hk Hall; unfold drawn.
  pose proof (as_completed_Permutation session_get data k (ends sched) sched Hk)
    as Hp.
  rewrite <- (fetched_rows_laid data) at 2
    by (eapply Permutation_Forall; [exact Hp|exact Hall]).
  apply Permutation_map; unfold fetched_rows.
  now apply Permutation_flat_map.
Qed.

Lemma overlays_length (r : Fetched) :
  is_Some (identify (f_club_badge r)) ->
  (1 <= length (overlays identify r) <= 2)%nat.
Proof.
  intros [li Hl]; unfold overlays; rewrite Hl.
  destruct (identify (f_photo r)); simpl; lia.
Qed.

Lemma flat_map_overlays_length (rs : list Fetched) :
  Forall (fun r => is_Some (identify (f_club_badge r))) rs ->
  (length rs <= length (flat_map (overlays identify) rs) <= 2 * length rs)%nat.
Proof.
  induction 1 as [|r rs Hr _ IH]; simpl; [lia|].
  rewrite length_app; pose proof (overlays_length r Hr); lia.
Qed.

End SceneFacts.

(** ** Photos and logos that are no images *)

(** C6, as the claim states it, fails: when neither the photo nor the logo
    of a player is an image, the handler's own [Image.open] raises, the
    exception leaves [add_player_image] and the figure has no image of the
    player at all. *)
Lemma fallback_without_logo_refuted :
  sample_identify (list_byte_of_string "HTML/102") = None
  /\ add_player_image sample_identify sample_str_float empty_figure
       (1 # 2) (1 # 2) "Bia"
       (list_byte_of_string "HTML/102") (list_byte_of_string "HTML/b") 10
     = (empty_figure, Raise UnidentifiedImageError).
Proof. split; reflexivity. Qed.

(** C6, amended: for a player whose photo is no image and whose logo is
    an image, [add_player_image] returns without an exception and adds
    exactly one image, the logo, centered at the player's coordinate with
    size 0.15 on both axes; no image of the photo is added. *)
Theorem undecodable_photo_falls_back {Image : Type}
  (identify : list Byte.byte -> option Image) (str_float : Q -> string)
  (fig : Figure Image) (px py : Q) (nm : string) (ph lg : Stream) (pr : Q)
  (li : Image) :
  identify ph = None -> identify lg = Some li ->
  exists (fig' : Figure Image) (e : LayoutImage Image),
    add_player_image identify str_float fig px py nm ph lg pr = (fig', Ok tt)
    /\ images fig' = (images fig ++ [e])%list
    /\ source e = li /\ img_x e = px /\ img_y e = py
    /\ sizex e = 15 # 100 /\ sizey e = 15 # 100
    /\ xanchor e = "center" /\ yanchor e = "middle"
    /\ traces fig' = (traces fig ++ [marker str_float px py nm pr])%list.
Proof.
  intros Hp Hl; eexists; exists (centered li px py); split.
  - apply (add_player_image_logo_only identify str_float fig px py nm ph lg pr li
             Hp Hl).
  - simpl; auto 10.
Qed.

Lemma undecodable_photo_falls_back_witness :
  exists (fig' : Figure (list Byte.byte)) (e : LayoutImage (list Byte.byte)),
    add_player_image sample_identify sample_str_float empty_figure
      (1 # 2) (1 # 2) "Bia"
      (list_byte_of_string "HTML/102") (list_byte_of_string "PNG/b") 10
    = (fig', Ok tt)
    /\ images fig' = ([] ++ [e])%list
    /\ source e = list_byte_of_string "PNG/b"
    /\ img_x e = 1 # 2 /\ img_y e = 1 # 2
    /\ sizex e = 15 # 100 /\ sizey e = 15 # 100
    /\ xanchor e = "center" /\ yanchor e = "middle"
    /\ traces fig'
       = ([] ++ [marker sample_str_float (1 # 2) (1 # 2) "Bia" 10])%list.
Proof.
  apply (undecodable_photo_falls_back sample_identify sample_str_float
           empty_figure (1 # 2) (1 # 2) "Bia"
           (list_byte_of_string "HTML/102") (list_byte_of_string "PNG/b") 10
           (list_byte_of_string "PNG/b")); reflexivity.
Defined.

(** C10: a logo that is no image is not recovered. When the photo is an
    image, its overlay is added, the [try] block raises on the logo, and
    the handler raises again on the logo that was already read; when the
    photo is no image, the handler raises on the logo. In both cases
    [UnidentifiedImageError] leaves [add_player_image] before the trace is
    added, the loop over the futures ends with it, and so does every run
    of [compose] over a frame that has such a row. *)
Theorem undecodable_logo_is_fatal {Image : Type}
  (identify : list Byte.byte -> option Image) (str_float : Q -> string)
  (fig : Figure Image) (px py : Q) (nm : string) (ph lg : Stream) (pr : Q) :
  identify [] = None -> identify lg = None ->
  (forall im, identify ph = Some im ->
     add_player_image identify str_float fig px py nm ph lg pr
     = (add_layout_image fig (centered im px py), Raise UnidentifiedImageError))
  /\ (identify ph = None ->
      add_player_image identify str_float fig px py nm ph lg pr
      = (fig, Raise UnidentifiedImageError))
  /\ (forall (r : Fetched) (rest : list (result Fetched)),
        f_club_badge r = lg ->
        snd (draw_players identify str_float fig (Ok r :: rest))
        = Raise UnidentifiedImageError)
  /\ (forall (session_get : string -> result Stream) (pitch : Image)
        (k : nat) (sched : Schedule) (data : list PlotRow) (d : PlotRow)
        (r : Fetched),
        (0 < k)%nat -> In d data -> transform_row session_get d = Ok r ->
        f_club_badge r = lg ->
        exists e,
          snd (compose identify str_float session_get pitch k sched data)
          = Raise e).
Proof.
  intros Hnil Hl; split; [|split; [|split]].
  - intros im Hp.
    rewrite (add_player_image_no_logo identify str_float Hnil) by assumption.
    rewrite Hp; unfold extend, add_layout_image; simpl; now rewrite app_nil_r.
  - intros Hp.
    rewrite (add_player_image_no_logo identify str_float Hnil) by assumption.
    rewrite Hp; now rewrite extend_nil.
  - intros r rest Hr; simpl.
    rewrite (add_player_image_no_logo identify str_float Hnil)
      by (now rewrite Hr).
    reflexivity.
  - intros session_get pitch k sched data d r Hk Hd Hr Hb.
    destruct (draw_players_raise identify str_float Hnil
                (as_completed (executor session_get k data (ends sched)) sched)
                (pitch_only pitch)) as (fig' & e & He).
    + intros Hall.
      apply (Permutation_Forall
               (as_completed_Permutation session_get data k (ends sched) sched
                  Hk)) in Hall.
      rewrite List.Forall_forall in Hall.
      specialize (Hall (Ok r)); simpl in Hall.
      rewrite Hb, Hl in Hall.
      destruct Hall as [? ?]; [|discriminate].
      rewrite <- Hr; now apply in_map.
    + exists e; unfold compose; fold (pitch_only pitch); now rewrite He.
Qed.

Lemma undecodable_logo_is_fatal_witness :
  add_player_image sample_identify sample_str_float empty_figure
    (1 # 2) (1 # 2) "Cris"
    (list_byte_of_string "HTML/103") (list_byte_of_string "HTML/c") 10
  = (empty_figure, Raise UnidentifiedImageError).
Proof.
  apply (undecodable_logo_is_fatal sample_identify sample_str_float
           empty_figure (1 # 2) (1 # 2) "Cris"
           (list_byte_of_string "HTML/103") (list_byte_of_string "HTML/c") 10);
    reflexivity.
Defined.

(** ** Layers of the scene *)

(** C7, as the claim states it, fails: a player whose photo is an image
    and whose logo is not gets the photo's overlay, then the exception
    leaves [add_player_image]: no logo is placed and no trace is added. *)
Lemma hit_target_without_logo_refuted :
  sample_identify (list_byte_of_string "PNG/103")
  = Some (list_byte_of_string "PNG/103")
  /\ exists fig',
       add_player_image sample_identify sample_str_float empty_figure
         (3 # 4) (1 # 2) "Cris"
         (list_byte_of_string "PNG/103") (list_byte_of_string "HTML/c") 10
       = (fig', Raise UnidentifiedImageError)
       /\ length (images fig') = 1%nat
       /\ traces fig' = [].
Proof. split; [reflexivity|eexists; repeat split]. Qed.

(** C7, amended: for a player whose logo is an image, [add_player_image]
    adds one trace at the coordinate, with a transparent marker, the name
    it is given as text and the price in the hover template; when the
    photo is an image too, it adds the photo centered at the coordinate
    with size 0.15 and the logo with its top left corner at
    (x + 0.01, y - 0.015) with size 0.075. A scene that [compose] returns
    starts with the pitch, has one or two more images for every row of the
    frame, and its traces are one per row, with the row's coordinate, name
    and price, in some order. *)
Theorem player_layers {Image : Type}
  (identify : list Byte.byte -> option Image) (str_float : Q -> string) :
  (forall (fig : Figure Image) (px py : Q) (nm : string) (ph lg : Stream)
      (pr : Q) (li : Image),
     identify lg = Some li ->
     exists (fig' : Figure Image) (t : Scatter),
       add_player_image identify str_float fig px py nm ph lg pr = (fig', Ok tt)
       /\ traces fig' = (traces fig ++ [t])%list
       /\ sc_x t = [px] /\ sc_y t = [py]
       /\ mode t = "markers+text" /\ marker_color t = "rgba(0,0,0,0)"
       /\ text_label t = nm
       /\ hovertemplate t = ("$" ++ str_float pr ++ "<extra></extra>")%string
       /\ forall im, identify ph = Some im ->
            exists p e : LayoutImage Image,
              images fig' = (images fig ++ [p; e])%list
              /\ source p = im /\ img_x p = px /\ img_y p = py
              /\ sizex p = 15 # 100 /\ sizey p = 15 # 100
              /\ xanchor p = "center" /\ yanchor p = "middle"
              /\ source e = li
              /\ img_x e = (px + (1 # 100))%Q /\ img_y e = (py - (15 # 1000))%Q
              /\ sizex e = 75 # 1000 /\ sizey e = 75 # 1000
              /\ xanchor e = "left" /\ yanchor e = "top")
  /\ (forall (session_get : string -> result Stream) (pitch : Image)
        (k : nat) (sched : Schedule) (data : list PlotRow) (fig : Figure Image),
        identify [] = None -> (0 < k)%nat ->
        compose identify str_float session_get pitch k sched data = (fig, Ok tt) ->
        hd_error (images fig) = Some (background pitch)
        /\ (length data + 1 <= length (images fig) <= 2 * length data + 1)%nat
        /\ Permutation (traces fig)
             (map (fun d => marker str_float (x d) (y d) (r_name d)
                              (price (player (row d)))) data)).
Proof.
  split.
  - intros fig px py nm ph lg pr li Hl.
    destruct (identify ph) as [im|] eqn:Hp.
    + eexists; exists (marker str_float px py nm pr); split;
        [apply (add_player_image_both identify str_float fig px py nm ph lg pr
                  im li Hp Hl)|].
      simpl; repeat split.
      intros im' Him; injection Him as <-.
      exists (centered im px py), (badge li px py); simpl; auto 20.
    + eexists; exists (marker str_float px py nm pr); split;
        [apply (add_player_image_logo_only identify str_float fig px py nm ph lg
                  pr li Hp Hl)|].
      simpl; repeat split. intros im Him; discriminate Him.
  - intros session_get pitch k sched data fig Hnil Hk H.
    apply (compose_ok identify str_float Hnil) in H as [Hall ->].
    pose proof (drawn_Permutation identify session_get k sched data Hk Hall) as Hp.
    pose proof (flat_map_overlays_length identify _ (drawable_rows identify _ Hall))
      as Hlen.
    fold (drawn session_get k sched data) in Hlen.
    rewrite <- (Permutation_length Hp), length_map.
    split; [reflexivity|split].
    + unfold extend, pitch_only; simpl; lia.
    + unfold extend, pitch_only; simpl.
      rewrite <- (Permutation_map _ Hp), map_map.
      reflexivity.
Qed.

Lemma player_layers_witness :
  (exists (fig' : Figure (list Byte.byte)) (t : Scatter),
     add_player_image sample_identify sample_str_float empty_figure
       (1 # 4) (1 # 2) "Ana"
       (list_byte_of_string "PNG/101") (list_byte_of_string "PNG/a") 10
     = (fig', Ok tt)
     /\ traces fig' = [t] /\ text_label t = "Ana"
     /\ length (images fig') = 2%nat)
  /\ exists fig : Figure (list Byte.byte),
       compose sample_identify sample_str_float sample_get sample_pitch
         5 (in_order [1%nat]) midfield_laid = (fig, Ok tt)
       /\ hd_error (images fig) = Some (background sample_pitch)
       /\ Permutation (traces fig)
            (map (fun d => marker sample_str_float (x d) (y d) (r_name d)
                             (price (player (row d)))) midfield_laid).
Proof.
  split.
  - destruct (proj1 (player_layers sample_identify sample_str_float)
                empty_figure (1 # 4) (1 # 2) "Ana"
                (list_byte_of_string "PNG/101") (list_byte_of_string "PNG/a")
                10%Q (list_byte_of_string "PNG/a") eq_refl)
      as (fig' & t & Hrun & Htr & _ & _ & _ & _ & Hnm & _ & Him).
    exists fig', t; split; [exact Hrun|split; [exact Htr|split; [exact Hnm|]]].
    destruct (Him (list_byte_of_string "PNG/101") eq_refl) as (p & e & -> & _).
    reflexivity.
  - eexists.
    assert (H : compose sample_identify sample_str_float sample_get sample_pitch
                  5 (in_order [1%nat]) midfield_laid = (_, Ok tt))
      by (vm_compute; reflexivity).
    split; [exact H|].
    destruct (proj2 (player_layers sample_identify sample_str_float)
                sample_get sample_pitch 5%nat (in_order [1%nat]) midfield_laid _
                eq_refl ltac:(lia) H) as (Hhd & _ & Htr).
    split; assumption.
Defined.

(** ** The order of the layers *)

Lemma compose_Permutation {Image : Type}
  (identify : list Byte.byte -> option Image) (str_float : Q -> string)
  (session_get : string -> result Stream) (pitch : Image)
  (k : nat) (s1 s2 : Schedule) (data : list PlotRow) (g1 : Figure Image) :
  identify [] = None -> (0 < k)%nat ->
  compose identify str_float session_get pitch k s1 data = (g1, Ok tt) ->
  exists g2,
    compose identify str_float session_get pitch k s2 data = (g2, Ok tt)
    /\ Permutation (images g1) (images g2)
    /\ Permutation (traces g1) (traces g2)
    /\ options g1 = options g2.
Proof.
  intros Hnil Hk H.
  apply (compose_ok identify str_float Hnil) in H as [Hall ->].
  assert (Hp : Permutation
                 (as_completed (executor session_get k data (ends s1)) s1)
                 (as_completed (executor session_get k data (ends s2)) s2)).
  { rewrite !as_completed_Permutation by assumption; reflexivity. }
  assert (Hd : Permutation (drawn session_get k s1 data)
                           (drawn session_get k s2 data)).
  { unfold drawn, fetched_rows; now apply Permutation_flat_map. }
  eexists; split; [|split; [|split]].
  - unfold compose; apply draw_players_drawable.
    eapply Permutation_Forall; [exact Hp|exact Hall].
  - simpl; apply Permutation_cons; [reflexivity|].
    now apply Permutation_flat_map.
  - simpl; now apply Permutation_map.
  - reflexivity.
Qed.

Lemma transform_row_laid (session_get : string -> result Stream)
  (r : PlotRow) (fr : Fetched) :
  transform_row session_get r = Ok fr -> laid fr = r.
Proof.
  unfold transform_row, download_image.
  destruct (session_get (photo (player (row r)))); simpl; [|discriminate].
  destruct (session_get (club_badge (player (row r)))); simpl; [|discriminate].
  now intros H; injection H as <-.
Qed.

(** The rows drawn are the rows of the frame at the places of the tasks,
    in the order the tasks are yielded, each with its own downloads. *)
Lemma drawn_in_yield_order {Image : Type}
  (identify : list Byte.byte -> option Image)
  (session_get : string -> result Stream) (data : list PlotRow) (p : Pool)
  (order : list nat) :
  (forall t r, data !! t = Some r ->
     future_result p t = Some (transform_row session_get r)) ->
  (forall t, In t order -> (t < length data)%nat) ->
  Forall (drawable identify) (omap (future_result p) order) ->
  map laid (fetched_rows (omap (future_result p) order))
  = omap (fun t => data !! t) order
  /\ Forall (fun fr => transform_row session_get (laid fr) = Ok fr)
       (fetched_rows (omap (future_result p) order)).
Proof.
  intros Hres; induction order as [|t order IH]; intros Hlt Hall.
  - split; [reflexivity|constructor].
  - destruct (lookup_lt_is_Some_2 data t (Hlt t (or_introl eq_refl))) as [r Hr].
    cbn [omap list_omap] in Hall |- *.
    rewrite (Hres t r Hr) in Hall |- *; rewrite Hr.
    apply Forall_cons_iff in Hall as [Hd Hall].
    destruct (transform_row session_get r) as [fr|e] eqn:Hfr; [|destruct Hd].
    destruct IH as [IH1 IH2]; [intros; apply Hlt; now right|assumption|].
    pose proof (transform_row_laid session_get r fr Hfr) as Hl.
    split.
    + simpl; now rewrite IH1, Hl.
    + simpl; constructor; [now rewrite Hl|exact IH2].
Qed.

(** C1, as the claim states it, fails: the loop draws the futures in the
    order [as_completed] yields them. With the same answer of the service
    and the same assets, the schedule in which the task of 101 ends first
    and the one in which the task of 102 ends first give two different
    charts: the traces of Ana and Bia, and their images, are swapped. *)
Lemma completion_order_changes_scene :
  exists f1 f2 : Figure (list Byte.byte),
    sample_main midfield_pos Cartola midfield_response (in_order [])
    = ([], Chart f1)
    /\ sample_main midfield_pos Cartola midfield_response (in_order [1%nat])
       = ([], Chart f2)
    /\ map text_label (traces f1) = ["Ana"; "(C) Bia"; "Cris"]
    /\ map text_label (traces f2) = ["(C) Bia"; "Ana"; "Cris"]
    /\ f1 <> f2.
Proof.
  eexists; eexists; split; [vm_compute; reflexivity|].
  split; [vm_compute; reflexivity|].
  split; [reflexivity|split; [reflexivity|]].
  intros H; apply (f_equal (fun f => map text_label (traces f))) in H.
  vm_compute in H; discriminate H.
Qed.

(** C1, amended: the scene lists the layers of the players in the order in
    which [as_completed] yields their futures, not by ascending id. When
    [main] shows a chart for the frame [data] that the layout returned,
    the tasks are yielded in the order [yield_order] of the order they
    ended in (the futures done at the call first, as the set is iterated,
    then the others as they end; the order the tasks ended in when none was
    done at the call); the rows drawn are the rows of [data] at the places
    of the tasks in that order, each with its own downloads; and the images
    of the chart are the pitch followed by the overlays of these rows, its
    traces their hit-targets, in that order. Any other schedule on the
    same inputs also ends with a chart, with the same images and the same
    traces up to their order in the figure and the same layout options. *)
Theorem scene_up_to_completion_order {Image : Type}
  (identify : list Byte.byte -> option Image) (str_float : Q -> string)
  (session_get : string -> result Stream) (pos : gmap string Coord)
  (pitch : Image) (game : Game) (res : Response) (s1 s2 : Schedule)
  (log : list event) (f1 : Figure Image) :
  identify [] = None ->
  main identify str_float session_get pos pitch game res s1 = (log, Chart f1) ->
  exists (rows : list Row) (data : list PlotRow),
    get_line_up res = (log, Returned rows)
    /\ transform_data pos rows
         match game with Cartola => true | CartolaExpress => false end
       = Ok data
    /\ map laid (drawn session_get 5 s1 data)
       = omap (fun t => data !! t)
           (yield_order (finished (executor session_get 5 data (ends s1))) s1)
    /\ (early s1 = 0%nat ->
        map laid (drawn session_get 5 s1 data)
        = omap (fun t => data !! t)
            (finished (executor session_get 5 data (ends s1))))
    /\ Forall (fun fr => transform_row session_get (laid fr) = Ok fr)
         (drawn session_get 5 s1 data)
    /\ images f1
       = background pitch
         :: flat_map (overlays identify) (drawn session_get 5 s1 data)
    /\ traces f1 = map (hit_target str_float) (drawn session_get 5 s1 data)
    /\ exists f2,
         main identify str_float session_get pos pitch game res s2
         = (log, Chart f2)
         /\ Permutation (images f1) (images f2)
         /\ Permutation (traces f1) (traces f2)
         /\ options f1 = options f2.
Proof.
  intros Hnil; unfold main.
  destruct (get_line_up res) as [log' [rows|]]; [|discriminate].
  destruct (transform_data pos rows _) as [data|e] eqn:Hlay; [|discriminate].
  destruct (compose identify str_float session_get pitch 5 s1 data)
    as [g1 [[]|e]] eqn:H1; [|discriminate].
  intros H; injection H as <- <-.
  exists rows, data; split; [reflexivity|split; [exact Hlay|]].
  destruct (compose_Permutation identify str_float session_get pitch 5 s1 s2
              data g1 Hnil ltac:(lia) H1) as (g2 & -> & Hi & Ht & Ho).
  apply (compose_ok identify str_float Hnil) in H1 as [Hall ->].
  destruct (drawn_in_yield_order identify session_get data
              (executor session_get 5 data (ends s1))
              (yield_order (finished (executor session_get 5 data (ends s1))) s1))
    as [Hord Hown].
  { intros t r Hr; apply future_result_executor; [lia|assumption]. }
  { intros t Ht'.
    apply (Permutation_in _ (yield_order_Permutation _ s1)) in Ht'.
    apply (Permutation_in _
             (proj1 (executor_spec session_get data 5 (ends s1) ltac:(lia))))
      in Ht'.
    apply in_seq in Ht'; lia. }
  { exact Hall. }
  split; [exact Hord|split; [|split; [exact Hown|split; [reflexivity|split;
    [reflexivity|]]]]].
  - intros He; unfold drawn, as_completed; rewrite Hord.
    unfold yield_order; rewrite He; reflexivity.
  - exists (update_layout g2 chart_options); simpl; auto.
Qed.

Lemma scene_up_to_completion_order_witness :
  exists f1 f2 : Figure (list Byte.byte),
    sample_main midfield_pos Cartola midfield_response (in_order [])
    = ([], Chart f1)
    /\ sample_main midfield_pos Cartola midfield_response
         {| ends := [1%nat]; early := 2; picks := [1%nat] |}
       = ([], Chart f2)
    /\ Permutation (images f1) (images f2)
    /\ Permutation (traces f1) (traces f2)
    /\ options f1 = options f2.
Proof.
  eexists.
  assert (H1 : sample_main midfield_pos Cartola midfield_response (in_order [])
               = ([], Chart _))
    by (vm_compute; reflexivity).
  destruct (scene_up_to_completion_order sample_identify sample_str_float
              sample_get midfield_pos sample_pitch Cartola
              midfield_response (in_order [])
              {| ends := [1%nat]; early := 2; picks := [1%nat] |}
              [] _ eq_refl H1)
    as (rows & data & _ & _ & _ & _ & _ & _ & _ & f2 & H2 & Hi & Ht & Ho).
  exists f2; auto.
Defined.

(** * Further properties *)

(** ** Ranks of any frame *)

Lemma count_if_disjoint {A} (f g : A -> bool) (l : list A) :
  (forall a, f a = true -> g a = false) ->
  count_if f l + count_if g l <= Z.of_nat (length l).
Proof.
  intros Hfg; induction l as [|a l IH]; [unfold count_if; simpl; lia|].
  rewrite !count_if_cons; simpl length.
  specialize (Hfg a); destruct (f a), (g a); lia.
Qed.

Lemma count_if_member {A} (f : A -> bool) (l : list A) (a : A) :
  In a l -> f a = true -> 1 <= count_if f l.
Proof.
  intros Hin Hf; induction l as [|b l IH]; [destruct Hin|].
  rewrite count_if_cons; pose proof (count_if_bounds f l).
  destruct Hin as [->|Hin]; [rewrite Hf; lia|].
  specialize (IH Hin); destruct (f b); lia.
Qed.

(** The rows with a smaller or an equal key are all smaller than a
    greater key. *)
Lemma smaller_and_equal {A} (key : A -> Z) (l : list A) (a b : A) :
  key a < key b ->
  smaller key l a + count_if (fun c => key c =? key a) l <= smaller key l b.
Proof.
  intros Hab; unfold smaller; induction l as [|c l IH];
    [unfold count_if; simpl; lia|].
  rewrite !count_if_cons.
  destruct (Z.ltb_spec (key c) (key a)), (Z.eqb_spec (key c) (key a)),
    (Z.ltb_spec (key c) (key b)); lia.
Qed.

Lemma rank2_bounds (data : list Row) (r : Row) :
  In r data ->
  2 <= rank2 data r <= 2 * Z.of_nat (length (group_of data r)).
Proof.
  intros Hin; unfold rank2.
  assert (Hg : In r (group_of data r))
    by (apply in_group_of; split; [assumption|apply same_group_refl]).
  pose proof (count_if_member (fun r' => id (player r') =? id (player r))
                (group_of data r) r Hg (Z.eqb_refl _)) as He.
  pose proof (count_if_bounds (fun r' => id (player r') <? id (player r))
                (group_of data r)) as Hl.
  pose proof (count_if_disjoint
                (fun r' => id (player r') <? id (player r))
                (fun r' => id (player r') =? id (player r))
                (group_of data r)) as Hd.
  lapply Hd; [lia|].
  intros a Ha; apply Z.ltb_lt in Ha; apply Z.eqb_neq; lia.
Qed.

Lemma rank_of_bounds (data : list Row) (r : Row) :
  In r data -> 1 <= rank_of data r <= Z.of_nat (length (group_of data r)).
Proof.
  intros Hin; pose proof (rank2_bounds data r Hin) as H2.
  unfold rank_of; rewrite Z.quot_div_nonneg by lia.
  split; [apply Z.div_le_lower_bound; lia|apply Z.div_le_upper_bound; lia].
Qed.

(** X1: in any frame, duplicate ids included, the rank of a row lies
    between 1 and the size of its group; within a group a row with an id
    that is not greater has a rank that is not greater; and two rows of a
    group with the same id get the same rank and the same plot key. *)
Theorem rank_within_group (data : list Row) (r : Row) :
  In r data ->
  1 <= rank_of data r <= Z.of_nat (length (group_of data r))
  /\ (forall r', same_group r r' = true -> pid r <= pid r' ->
        rank_of data r <= rank_of data r')
  /\ (forall r', same_group r r' = true -> pid r = pid r' ->
        rank_of data r' = rank_of data r /\ plot_of data r' = plot_of data r).
Proof.
  intros Hin; split; [now apply rank_of_bounds|].
  assert (Hsame : forall r', same_group r r' = true -> pid r = pid r' ->
                    rank2 data r' = rank2 data r).
  { intros r' Hg Hid; unfold rank2, pid in *.
    now rewrite (group_of_same data r r' Hg), Hid. }
  split.
  - intros r' Hg Hle.
    pose proof (rank2_bounds data r Hin) as Hb.
    assert (H2 : rank2 data r <= rank2 data r').
    { destruct (Z.eq_dec (pid r) (pid r')) as [Heq|Hne];
        [rewrite (Hsame r' Hg Heq); lia|].
      unfold rank2; rewrite (group_of_same data r r' Hg).
      pose proof (smaller_and_equal pid (group_of data r) r r' ltac:(lia)) as Hs.
      unfold smaller, pid in Hs.
      pose proof (count_if_bounds (fun x => id (player x) =? id (player r'))
                    (group_of data r)).
      pose proof (count_if_bounds (fun x => id (player x) =? id (player r))
                    (group_of data r)).
      lia. }
    unfold rank_of; rewrite !Z.quot_div_nonneg by lia.
    apply Z.div_le_mono; lia.
  - intros r' Hg Hid.
    assert (Hrk : rank_of data r' = rank_of data r)
      by (unfold rank_of; now rewrite (Hsame r' Hg Hid)).
    split; [exact Hrk|].
    apply same_group_eq in Hg as [Hp Ht].
    unfold plot_of; now rewrite Hrk, Hp, Ht.
Qed.

Lemma rank_of_group (data data' : list Row) (r : Row) :
  group_of data' r = group_of data r -> rank_of data' r = rank_of data r.
Proof. intros H; unfold rank_of, rank2; now rewrite H. Qed.

Lemma group_of_app (a b : list Row) (r : Row) :
  group_of (a ++ b) r = (group_of a r ++ group_of b r)%list.
Proof. unfold group_of; apply List.filter_app. Qed.

Lemma group_of_other_type (t : string) (ps : list Player) (r : Row) :
  type r <> t -> group_of (map (tag t) ps) r = [].
Proof.
  intros Hne; unfold group_of; induction ps as [|p ps IH]; simpl; [reflexivity|].
  unfold same_group at 1; simpl.
  destruct (String.eqb_spec (type r) t) as [Heq|_]; [contradiction|].
  now rewrite andb_false_r.
Qed.

Lemma get_line_up_returned (res : Response) (log : list event) (data : list Row) :
  get_line_up res = (log, Returned data) ->
  log = []
  /\ data = (map (tag "players") (out_players (output res))
             ++ map (tag "bench") (out_bench (output res)))%list.
Proof.
  unfold get_line_up.
  destruct (300 <=? status_code res); [discriminate|].
  destruct (negb (String.eqb (status res) "SUCCEEDED")); [discriminate|].
  intros H; injection H as <- <-; auto.
Qed.

(** X2: the ranks of the starters and of the substitutes are counted
    apart. In the frame [get_line_up] returns, the rank of a row of
    ["players"] is its rank among the rows of ["players"] alone, and the
    rank of a row of ["bench"] its rank among the rows of ["bench"] alone:
    a substitute never moves a starter to another place. *)
Theorem roster_ranks_apart (res : Response) (log : list event) (data : list Row) :
  get_line_up res = (log, Returned data) ->
  (forall p, rank_of data (tag "players" p)
             = rank_of (map (tag "players") (out_players (output res)))
                 (tag "players" p))
  /\ (forall p, rank_of data (tag "bench" p)
                = rank_of (map (tag "bench") (out_bench (output res)))
                    (tag "bench" p)).
Proof.
  intros H; apply get_line_up_returned in H as [_ ->]; split; intros p;
    apply rank_of_group; rewrite group_of_app.
  - rewrite (group_of_other_type "bench") by (simpl; discriminate).
    apply app_nil_r.
  - rewrite (group_of_other_type "players") by (simpl; discriminate).
    reflexivity.
Qed.

Lemma roster_ranks_apart_witness :
  rank_of tied_rows
    (tag "players" (sample_player 2 "Enzo" "forward" 8 "PNG/2" "PNG/e"))
  = rank_of (map (tag "players") (out_players (output tied_response)))
      (tag "players" (sample_player 2 "Enzo" "forward" 8 "PNG/2" "PNG/e"))
  /\ rank_of tied_rows
       (tag "bench" (sample_player 3 "Caio" "forward" 10 "PNG/3" "PNG/f"))
     = rank_of (map (tag "bench") (out_bench (output tied_response)))
         (tag "bench" (sample_player 3 "Caio" "forward" 10 "PNG/3" "PNG/f"))
  /\ rank_of tied_rows
       (tag "bench" (sample_player 3 "Caio" "forward" 10 "PNG/3" "PNG/f"))
     = 1.
Proof.
  pose proof (roster_ranks_apart tied_response [] tied_rows eq_refl) as [Hp Hb].
  split; [apply Hp|split; [apply Hb|]].
  rewrite Hb; reflexivity.
Defined.

Lemma rank_within_group_witness :
  1 <= rank_of tied_rows (tag "bench" (sample_player 3 "Caio" "forward" 10 "PNG/3" "PNG/f"))
    <= 1.
Proof.
  apply (proj1 (rank_within_group tied_rows
                  (tag "bench" (sample_player 3 "Caio" "forward" 10 "PNG/3" "PNG/f"))
                  ltac:(right; right; left; reflexivity))).
Defined.

(** ** The layout and the order of the rows *)

Lemma apply_result_of_Forall2 {A B} (f : A -> result B) (l : list A) (out : list B) :
  Forall2 (fun a b => f a = Ok b) l out -> apply_result f l = Ok out.
Proof.
  induction 1 as [|a b l out Hab _ IH]; simpl; [reflexivity|].
  now rewrite Hab, IH.
Qed.

Lemma place_Permutation (pos : gmap string Coord) (data data' : list Row) (r : Row) :
  Permutation data data' -> place pos data' r = place pos data r.
Proof. intros Hp; unfold place; now rewrite (rank_of_Permutation data data' r Hp). Qed.

Lemma Series_max_In (l : list Q) (m : Q) :
  Series_max l = Some m -> In m l /\ forall q, In q l -> (q <= m)%Q.
Proof.
  destruct l as [|p ps]; simpl; [discriminate|].
  intros H; injection H as <-; split.
  - apply fold_Qmax_In.
  - intros q Hq; now apply fold_Qmax_upper.
Qed.

(** The greatest value of a column does not depend on the order of the
    rows, up to the equality of numbers. *)
Lemma Series_max_Permutation (l l' : list Q) :
  Permutation l l' ->
  match Series_max l, Series_max l' with
  | Some m, Some m' => (m == m')%Q
  | None, None => True
  | _, _ => False
  end.
Proof.
  intros Hp.
  destruct (Series_max l) as [m|] eqn:Hm, (Series_max l') as [m'|] eqn:Hm'.
  - apply Series_max_In in Hm as [Hin Hup], Hm' as [Hin' Hup'].
    apply Qle_antisym.
    + apply Hup'; eapply Permutation_in; [exact Hp|exact Hin].
    + apply Hup; eapply Permutation_in; [symmetry; exact Hp|exact Hin'].
  - destruct l' as [|? ?]; [|discriminate Hm'].
    apply Permutation_sym, Permutation_nil in Hp; subst l; discriminate Hm.
  - destruct l as [|? ?]; [|discriminate Hm].
    apply Permutation_nil in Hp; subst l'; discriminate Hm'.
  - exact I.
Qed.

Lemma mark_captain_Qeq (m m' : Q) (r : PlotRow) :
  (m == m')%Q -> mark_captain (Some m) r = mark_captain (Some m') r.
Proof. intros H; unfold mark_captain; now rewrite H. Qed.

(** X3: the layout does not depend on the order of the rows. When the
    layout of a frame returns, the layout of the same rows in any other
    order returns the same laid-out rows, in that other order: ranks, plot
    keys, coordinates, captain flags and names are those of the rows, not
    of their places in the frame. *)
Theorem layout_ignores_row_order (pos : gmap string Coord)
  (data data' : list Row) (captain : bool) (out : list PlotRow) :
  Permutation data data' ->
  transform_data pos data captain = Ok out ->
  exists out', transform_data pos data' captain = Ok out'
    /\ Permutation out out'
    /\ Forall2 (fun r o => row o = r) data' out'.
Proof.
  intros Hp H.
  assert (Hne : data <> []) by (intros ->; discriminate H).
  apply transform_data_rows in H as (rows & Hrows & ->).
  apply apply_result_Forall2 in Hrows.
  destruct (Permutation_Forall2 Hp Hrows) as (rows' & Hpr & Hrows').
  assert (Happ : apply_result (place pos data') data' = Ok rows').
  { apply apply_result_of_Forall2.
    eapply Forall2_impl; [exact Hrows'|].
    intros r o Ho; now rewrite (place_Permutation pos data data' r Hp). }
  assert (Hrow : Forall2 (fun r o => row o = r) data' rows').
  { eapply Forall2_impl; [exact Hrows'|].
    intros r o Ho; now apply place_ok in Ho. }
  unfold transform_data; destruct data' as [|r0 rs].
  { apply Permutation_sym, Permutation_nil in Hp; contradiction. }
  rewrite Happ; simpl; destruct captain.
  - eexists; split; [reflexivity|].
    pose proof (Series_max_Permutation _ _
                  (Permutation_map (fun r => points (player (row r))) Hpr)) as Hm.
    destruct (Series_max (map (fun r => points (player (row r))) rows)) as [m|],
             (Series_max (map (fun r => points (player (row r))) rows')) as [m'|];
      try contradiction.
    + split.
      * rewrite (map_ext _ _ (fun r => mark_captain_Qeq m m' r Hm)).
        now apply Permutation_map.
      * eapply Forall2_map_right; [exact Hrow|]; intros r o <-; reflexivity.
    + split; [now apply Permutation_map|].
      eapply Forall2_map_right; [exact Hrow|]; intros r o <-; reflexivity.
  - exists rows'; auto.
Qed.

Lemma layout_ignores_row_order_witness :
  exists out', transform_data midfield_pos (rev midfield_rows) true = Ok out'
    /\ Permutation midfield_laid out'
    /\ Forall2 (fun r o => row o = r) (rev midfield_rows) out'.
Proof.
  apply (layout_ignores_row_order midfield_pos midfield_rows (rev midfield_rows)
           true midfield_laid).
  - apply Permutation_rev.
  - vm_compute; reflexivity.
Defined.

(** ** Plot keys of different players *)

Lemma dashless_with_dash (a b : string) :
  dashless (a ++ String "-" b) = false.
Proof.
  induction a as [|c a IH]; simpl; [reflexivity|].
  rewrite IH; apply andb_false_r.
Qed.

(** A key is cut at its last ["-"] in one way only. *)
Lemma last_dash_split (p1 p2 d1 d2 : string) :
  dashless d1 = true -> dashless d2 = true ->
  (p1 ++ String "-" d1 = p2 ++ String "-" d2)%string ->
  p1 = p2 /\ d1 = d2.
Proof.
  intros H1 H2; revert p2; induction p1 as [|c p1 IH]; intros [|c2 p2] H;
    simpl in H.
  - injection H as ->; auto.
  - injection H as <- ->. now rewrite dashless_with_dash in H1.
  - injection H as -> <-. now rewrite dashless_with_dash in H2.
  - injection H as -> H. destruct (IH p2 H) as [-> ->]; auto.
Qed.

Lemma string_of_uint_dashless (d : Decimal.uint) :
  dashless (NilEmpty.string_of_uint d) = true.
Proof. induction d; simpl; auto. Qed.

Lemma str_int_dashless (z : Z) : 0 < z -> dashless (str_int z) = true.
Proof.
  destruct z as [|p|p]; try lia; intros _.
  unfold str_int.
  change (Z.to_int (Z.pos p)) with (Decimal.Pos (Pos.to_uint p)).
  unfold NilZero.string_of_int, NilZero.string_of_uint.
  pose proof (string_of_uint_dashless (Pos.to_uint p)) as H.
  destruct (Pos.to_uint p); [reflexivity|exact H..].
Qed.

(** The decimal text of a rank is read back as the rank: two positive
    numbers with the same text are equal. *)
Lemma str_int_inj (a b : Z) : 0 < a -> 0 < b -> str_int a = str_int b -> a = b.
Proof.
  intros Ha Hb H; apply DecimalZ.to_int_inj.
  assert (Hi : forall z, 0 < z ->
            NilZero.int_of_string (str_int z) = Some (Z.to_int z)).
  { intros [|p|p] Hz; try lia; unfold str_int.
    change (Z.to_int (Z.pos p)) with (Decimal.Pos (Pos.to_uint p)).
    apply NilZero.isi; [|discriminate].
    intros E; injection E as E.
    exact (DecimalPos.Unsigned.to_uint_nonnil p E). }
  pose proof (Hi a Ha) as Ea; pose proof (Hi b Hb) as Eb.
  rewrite H in Ea; congruence.
Qed.

Lemma NoDup_map_eq {A B} (f : A -> B) (l : list A) (a b : A) :
  List.NoDup (map f l) -> In a l -> In b l -> f a = f b -> a = b.
Proof.
  induction l as [|c l IH]; intros Hnd Ha Hb Hf; [destruct Ha|].
  simpl in Hnd; apply NoDup_cons_iff in Hnd as [Hc Hnd].
  destruct Ha as [->|Ha], Hb as [->|Hb]; auto.
  - exfalso; apply Hc; rewrite Hf; now apply in_map.
  - exfalso; apply Hc; rewrite <- Hf; now apply in_map.
Qed.

Lemma get_line_up_types (res : Response) (log : list event) (data : list Row)
  (r : Row) :
  get_line_up res = (log, Returned data) -> In r data ->
  type r = "players" \/ type r = "bench".
Proof.
  intros H Hr; apply get_line_up_returned in H as [_ ->].
  apply in_app_or in Hr as [Hr|Hr]; apply in_map_iff in Hr as (p & <- & _);
    simpl; auto.
Qed.

(** X4: in the frame [get_line_up] returns, when the ids are pairwise
    distinct, two different rows never get the same plot key: rows of
    different type or position differ in the text before the last ["-"],
    and rows of the same group differ in the rank. No two players are
    sent to the same entry of the table. *)
Theorem plot_keys_distinct (res : Response) (log : list event)
  (data : list Row) (r1 r2 : Row) :
  get_line_up res = (log, Returned data) ->
  List.NoDup (map pid data) ->
  In r1 data -> In r2 data ->
  plot_of data r1 = plot_of data r2 -> r1 = r2.
Proof.
  intros Hres Hnd H1 H2 Hkey.
  pose proof (rank_of_bounds data r1 H1) as Hb1.
  pose proof (rank_of_bounds data r2 H2) as Hb2.
  assert (Hsplit : type r1 = type r2
                   /\ position (player r1) = position (player r2)
                   /\ rank_of data r1 = rank_of data r2).
  { unfold plot_of, plot_key in Hkey.
    assert (Hcut : forall a b : Row,
              (position (player a) ++ "-" ++ str_int (rank_of data r1)
               = position (player b) ++ "-" ++ str_int (rank_of data r2))%string ->
              position (player a) = position (player b)
              /\ rank_of data r1 = rank_of data r2).
    { intros a b E.
      apply last_dash_split in E as [Hp Hs];
        try (apply str_int_dashless; lia).
      split; [exact Hp|apply str_int_inj; [lia|lia|exact Hs]]. }
    destruct (get_line_up_types res log data r1 Hres H1) as [T1|T1],
             (get_line_up_types res log data r2 Hres H2) as [T2|T2];
      rewrite T1, T2 in Hkey; simpl in Hkey; try discriminate Hkey;
      injection Hkey as Hkey; destruct (Hcut r1 r2 Hkey); repeat split;
      congruence. }
  destruct Hsplit as (Ht & Hp & Hrk).
  assert (Hg : same_group r1 r2 = true) by (apply same_group_eq; auto).
  apply (NoDup_map_eq pid data); auto.
  rewrite (rank_of_distinct data r1 Hnd H1), (rank_of_distinct data r2 Hnd H2) in Hrk.
  rewrite (group_of_same data r1 r2 Hg) in Hrk.
  assert (Hin1 : In r1 (group_of data r1))
    by (apply in_group_of; split; [assumption|apply same_group_refl]).
  assert (Hin2 : In r2 (group_of data r1))
    by (apply in_group_of; split; assumption).
  destruct (Z.lt_total (pid r1) (pid r2)) as [Hlt|[Heq|Hlt]]; [|exact Heq|].
  - pose proof (smaller_strict pid _ r1 r2 Hin1 Hlt); lia.
  - pose proof (smaller_strict pid _ r2 r1 Hin2 Hlt); lia.
Qed.

Lemma plot_keys_distinct_witness :
  tag "players" (sample_player 102 "Bia" "midfielder" 9 "PNG/102" "PNG/b")
  = tag "players" (sample_player 102 "Bia" "midfielder" 9 "PNG/102" "PNG/b").
Proof.
  apply (plot_keys_distinct midfield_response [] midfield_rows
           (tag "players" (sample_player 102 "Bia" "midfielder" 9 "PNG/102" "PNG/b"))
           (tag "players" (sample_player 102 "Bia" "midfielder" 9 "PNG/102" "PNG/b"))
           eq_refl).
  - change (List.NoDup [101; 102; 103]).
    repeat (constructor; [simpl; intuition lia|]); constructor.
  - right; left; reflexivity.
  - right; left; reflexivity.
  - reflexivity.
Defined.

(** ** The first missing key *)

Lemma apply_result_first_raise {A B} (f : A -> result B) (pre post : list A)
  (a : A) (e : exn) :
  (forall b, In b pre -> exists o, f b = Ok o) -> f a = Raise e ->
  apply_result f (pre ++ a :: post) = Raise e.
Proof.
  induction pre as [|b pre IH]; intros Hpre Ha; simpl.
  - now rewrite Ha.
  - destruct (Hpre b (or_introl eq_refl)) as [o ->]; simpl.
    rewrite IH; [reflexivity| |assumption].
    intros c Hc; apply Hpre; now right.
Qed.

(** X5: the [KeyError] of the layout names the key of the first row, in
    the order of the frame, whose key is not in the table: the rows before
    it are looked up and found, the rows after it are never looked up. *)
Theorem first_missing_key_is_raised (pos : gmap string Coord)
  (pre post : list Row) (r : Row) (captain : bool) :
  (forall a, In a pre -> is_Some (pos !! plot_of (pre ++ r :: post) a)) ->
  pos !! plot_of (pre ++ r :: post) r = None ->
  transform_data pos (pre ++ r :: post) captain
  = Raise (KeyError (plot_of (pre ++ r :: post) r)).
Proof.
  intros Hpre Hr.
  assert (H : apply_result (place pos (pre ++ r :: post)) (pre ++ r :: post)
              = Raise (KeyError (plot_of (pre ++ r :: post) r))).
  { apply apply_result_first_raise.
    - intros a Ha; apply place_present; auto.
    - now apply place_missing. }
  unfold transform_data.
  destruct (pre ++ r :: post)%list eqn:E; [now destruct pre|].
  now rewrite H.
Qed.

Lemma first_missing_key_is_raised_witness :
  transform_data (delete "players-midfielder-2" midfield_pos) midfield_rows true
  = Raise (KeyError "players-midfielder-2").
Proof.
  apply (first_missing_key_is_raised (delete "players-midfielder-2" midfield_pos)
           [tag "players" (sample_player 101 "Ana" "midfielder" 5 "PNG/101" "PNG/a")]
           [tag "players" (sample_player 103 "Cris" "midfielder" 5 "PNG/103" "PNG/c")]
           (tag "players" (sample_player 102 "Bia" "midfielder" 9 "PNG/102" "PNG/b"))
           true).
  - intros a [<-|[]]; vm_compute; eexists; reflexivity.
  - vm_compute; reflexivity.
Defined.

(** ** Captains *)

(** X6: with the captain enabled, a layout that returns has at least one
    captain, and a captain's name is the player's name behind the prefix
    ["(C) "]. The top score is always reached by some row, be it a
    starter or a substitute. *)
Theorem captain_exists (pos : gmap string Coord) (data : list Row)
  (out : list PlotRow) :
  transform_data pos data true = Ok out ->
  (exists o, In o out /\ r_captain o = Some true)
  /\ forall o, In o out -> r_captain o = Some true ->
       r_name o = ("(C) " ++ name (player (row o)))%string.
Proof.
  intros H.
  assert (Hne : data <> []) by (intros ->; discriminate H).
  apply transform_data_rows in H as (rows & Hrows & ->).
  apply apply_result_Forall2 in Hrows.
  cbv iota; split.
  - destruct (Series_max (map (fun r => points (player (row r))) rows))
      as [m|] eqn:Hm.
    + destruct (Series_max_In _ m Hm) as [Hin _].
      apply in_map_iff in Hin as (o & Ho & Hin).
      exists (mark_captain (Some m) o); split; [now apply in_map|].
      simpl; rewrite Ho, Qeq_bool_refl; reflexivity.
    + destruct rows; [|discriminate Hm].
      inversion Hrows; subst; contradiction.
  - intros o' Hin Hc; apply in_map_iff in Hin as (o & <- & Hin).
    destruct (Forall2_In_right _ _ _ Hrows o Hin) as (r & _ & Ho).
    apply place_ok in Ho as (Hr & Hn & _).
    simpl in Hc |- *; injection Hc as Hc; rewrite Hc, Hn, Hr; reflexivity.
Qed.

Lemma captain_exists_witness :
  exists o, In o midfield_laid /\ r_captain o = Some true.
Proof.
  apply (proj1 (captain_exists midfield_pos midfield_rows midfield_laid eq_refl)).
Defined.

(** ** Runs that show no chart *)

(** X7: an answer of the service that succeeds but lists no player and no
    substitute does not give an empty chart: the frame has no
    ["position"] column, the layout raises [KeyError] on it, and the run
    ends with that exception, without the message of a failed request. *)
Theorem empty_line_up_raises {Image : Type}
  (identify : list Byte.byte -> option Image) (str_float : Q -> string)
  (session_get : string -> result Stream) (pos : gmap string Coord)
  (pitch : Image) (game : Game) (res : Response) (sched : Schedule) :
  status_code res < 300 -> status res = "SUCCEEDED" ->
  out_players (output res) = [] -> out_bench (output res) = [] ->
  main identify str_float session_get pos pitch game res sched
  = ([], Uncaught (KeyError "position")).
Proof.
  intros Hc Hs Hp Hb; unfold main, get_line_up.
  destruct (Z.leb_spec 300 (status_code res)); [lia|].
  rewrite Hs, Hp, Hb; reflexivity.
Qed.

Lemma empty_line_up_raises_witness :
  sample_main midfield_pos Cartola (sample_response 200 "SUCCEEDED" [] [])
    (in_order [])
  = ([], Uncaught (KeyError "position")).
Proof.
  apply (empty_line_up_raises sample_identify sample_str_float sample_get
           midfield_pos sample_pitch Cartola
           (sample_response 200 "SUCCEEDED" [] []) (in_order []));
    [simpl; lia|reflexivity..].
Defined.

(** X8: the message of a failed request is shown exactly in the runs that
    halt, once and with nothing else shown; a run that ends with a chart or
    with an uncaught exception (a missing plot key, a failed download, a
    logo that is no image) shows and prints nothing. *)
Theorem message_iff_halted {Image : Type}
  (identify : list Byte.byte -> option Image) (str_float : Q -> string)
  (session_get : string -> result Stream) (pos : gmap string Coord)
  (pitch : Image) (game : Game) (res : Response) (sched : Schedule) :
  let run := main identify str_float session_get pos pitch game res sched in
  (snd run = Halted <-> st_errors (fst run) = [ERROR_MSG])
  /\ (snd run <> Halted -> fst run = [])
  /\ (In (Print (text res)) (fst run) <-> 300 <= status_code res).
Proof.
  unfold main, get_line_up.
  destruct (Z.leb_spec 300 (status_code res)) as [Hc|Hc]; simpl.
  - repeat split; auto; try tauto; try lia.
  - destruct (negb (String.eqb (status res) "SUCCEEDED")); simpl.
    + repeat split; auto; try tauto; try lia.
      intros [H|[]]; discriminate H.
    + destruct (transform_data pos _ _) as [data|e]; simpl.
      * destruct (compose identify str_float session_get pitch 5 sched data)
          as [fig [[]|e]]; simpl; repeat split; auto; try discriminate;
          try tauto; try lia.
      * repeat split; auto; try discriminate; try tauto; try lia.
Qed.

(** ** What drawing adds to the figure *)

Lemma add_player_image_extends {Image : Type}
  (identify : list Byte.byte -> option Image) (str_float : Q -> string)
  (fig : Figure Image) (px py : Q) (nm : string) (ph lg : Stream) (pr : Q) :
  exists ims trs,
    fst (add_player_image identify str_float fig px py nm ph lg pr)
    = extend fig ims trs
    /\ (length trs <= length ims <= 2)%nat
    /\ match snd (add_player_image identify str_float fig px py nm ph lg pr) with
       | Ok _ => length trs = 1%nat
       | Raise _ => trs = [] /\ (length ims <= 1)%nat
       end.
Proof.
  unfold add_player_image, add_images, logo_only, Image_open.
  destruct (identify ph) as [im|], (identify lg) as [li|];
    try destruct (identify []) as [ei|]; simpl.
  all: unfold add_trace, add_layout_image, extend; simpl.
  all: try rewrite <- !app_assoc; simpl.
  all: try (eexists [_; _], [_]; simpl; split; [reflexivity|lia]).
  all: try (eexists [_], [_]; simpl; split; [reflexivity|lia]).
  all: try (eexists [_], []; simpl; split;
            [now rewrite app_nil_r|split; [lia|split; [reflexivity|lia]]]).
  all: exists [], []; simpl; split;
         [rewrite !app_nil_r; now destruct fig
         |split; [lia|split; [reflexivity|lia]]].
Qed.

(** X9: drawing only appends. Whatever the assets, [add_player_image]
    leaves the images and traces of the figure in place and adds at most
    two images and at most one trace; when it returns it has added exactly
    one trace and at least one image, and when it raises it has added no
    trace and at most one image. The loop over the futures therefore never
    leaves more traces than rows, nor a trace without an image, and when
    it returns it has added one trace for every row. *)
Theorem drawing_only_appends {Image : Type}
  (identify : list Byte.byte -> option Image) (str_float : Q -> string) :
  (forall (fig : Figure Image) (px py : Q) (nm : string) (ph lg : Stream)
      (pr : Q),
     exists ims trs,
       fst (add_player_image identify str_float fig px py nm ph lg pr)
       = extend fig ims trs
       /\ (length trs <= length ims <= 2)%nat
       /\ match snd (add_player_image identify str_float fig px py nm ph lg pr)
          with
          | Ok _ => length trs = 1%nat
          | Raise _ => trs = [] /\ (length ims <= 1)%nat
          end)
  /\ forall (done : list (result Fetched)) (fig : Figure Image),
       exists ims trs,
         fst (draw_players identify str_float fig done) = extend fig ims trs
         /\ (length trs <= length done)%nat
         /\ (length trs <= length ims <= 2 * length done)%nat
         /\ (snd (draw_players identify str_float fig done) = Ok tt ->
             length trs = length done).
Proof.
  split; [apply add_player_image_extends|].
  intros done; induction done as [|d done IH]; intros fig; simpl.
  - exists [], []; rewrite extend_nil; simpl; auto with lia.
  - destruct d as [r|e]; simpl;
      [|exists [], []; rewrite extend_nil; simpl; repeat split;
        try lia; discriminate].
    destruct (add_player_image_extends identify str_float fig
                (x (laid r)) (y (laid r)) (r_name (laid r)) (f_photo r)
                (f_club_badge r) (price (player (row (laid r)))))
      as (ims & trs & Hfst & Hlen & Hsnd).
    destruct (add_player_image identify str_float fig (x (laid r)) (y (laid r))
                (r_name (laid r)) (f_photo r) (f_club_badge r)
                (price (player (row (laid r))))) as [fig' [[]|e]];
      simpl in Hfst, Hsnd; subst fig'.
    + destruct (IH (extend fig ims trs)) as (ims' & trs' & -> & H1 & H2 & H3).
      exists (ims ++ ims')%list, (trs ++ trs')%list.
      rewrite extend_extend, !length_app; repeat split; try lia.
      intros Hok; specialize (H3 Hok); lia.
    + destruct Hsnd as [-> Hi]; exists ims, []; simpl; repeat split;
        try lia; discriminate.
Qed.

(** ** Downloads that fail *)

Lemma Forall2_In_left {A B} (P : A -> B -> Prop) (l : list A) (l' : list B) :
  Forall2 P l l' -> forall a, In a l -> exists b, In b l' /\ P a b.
Proof.
  induction 1 as [|a b l l' Hab _ IH]; intros c Hc; [destruct Hc|].
  destruct Hc as [<-|Hc].
  - exists b; split; [now left|assumption].
  - destruct (IH c Hc) as (b' & Hb' & HP); exists b'; split; [now right|assumption].
Qed.

Lemma draw_players_Raise_in {Image : Type}
  (identify : list Byte.byte -> option Image) (str_float : Q -> string)
  (done : list (result Fetched)) (fig : Figure Image) (e : exn) :
  In (Raise e) done ->
  exists fig' e', draw_players identify str_float fig done = (fig', Raise e').
Proof.
  revert fig; induction done as [|d done IH]; intros fig Hin; [destruct Hin|].
  destruct d as [r|e0]; simpl; [|eauto].
  destruct Hin as [Hin|Hin]; [discriminate Hin|].
  destruct (add_player_image identify str_float fig (x (laid r)) (y (laid r))
              (r_name (laid r)) (f_photo r) (f_club_badge r)
              (price (player (row (laid r))))) as [fig' [[]|e']]; eauto.
Qed.

Lemma get_line_up_rows (res : Response) (log : list event) (data : list Row)
  (p : Player) :
  get_line_up res = (log, Returned data) ->
  In p (out_players (output res) ++ out_bench (output res)) ->
  exists r, In r data /\ player r = p.
Proof.
  intros H Hp; apply get_line_up_returned in H as [_ ->].
  apply in_app_or in Hp as [Hp|Hp].
  - exists (tag "players" p); split; [|reflexivity].
    apply in_or_app; left; now apply in_map.
  - exists (tag "bench" p); split; [|reflexivity].
    apply in_or_app; right; now apply in_map.
Qed.

(** X10: a download that fails is fatal for the whole run. When
    [session.get] raises for the photo or for the badge of one player of
    the answer, no chart is shown for any schedule of the pool: the run
    halts on the request, or it ends with an uncaught exception. *)
Theorem failed_download_is_fatal {Image : Type}
  (identify : list Byte.byte -> option Image) (str_float : Q -> string)
  (session_get : string -> result Stream) (pos : gmap string Coord)
  (pitch : Image) (game : Game) (res : Response) (sched : Schedule)
  (p : Player) (e : exn) :
  In p (out_players (output res) ++ out_bench (output res)) ->
  session_get (photo p) = Raise e \/ session_get (club_badge p) = Raise e ->
  snd (main identify str_float session_get pos pitch game res sched) = Halted
  \/ exists e',
       snd (main identify str_float session_get pos pitch game res sched)
       = Uncaught e'.
Proof.
  intros Hp Hfail; unfold main.
  destruct (get_line_up res) as [log [rows|]] eqn:Hres; [|now left].
  right.
  destruct (transform_data pos rows _) as [data|e0] eqn:Hlay; [|eauto].
  destruct (get_line_up_rows res log rows p Hres Hp) as (r & Hr & Hpl).
  apply transform_data_Forall2 in Hlay.
  destruct (Forall2_In_left _ _ _ Hlay r Hr) as (o & Ho & Hrow & _).
  assert (Hraise : exists e1, transform_row session_get o = Raise e1).
  { unfold transform_row, download_image; rewrite Hrow, Hpl.
    destruct Hfail as [-> | Hb]; simpl; [eauto|].
    destruct (session_get (photo p)); simpl; [rewrite Hb|]; simpl; eauto. }
  destruct Hraise as [e1 He1].
  destruct (draw_players_Raise_in identify str_float
              (as_completed (executor session_get 5 data (ends sched)) sched)
              (pitch_only pitch) e1) as (fig' & e' & Hd).
  { eapply Permutation_in;
      [symmetry;
       apply (as_completed_Permutation session_get data 5 (ends sched) sched);
       lia|].
    rewrite <- He1; now apply in_map. }
  unfold compose; fold (pitch_only pitch); rewrite Hd; eauto.
Qed.

Lemma failed_download_is_fatal_witness :
  snd (main sample_identify sample_str_float
         (fun url => Raise (ConnectionError url)) midfield_pos sample_pitch
         Cartola midfield_response (in_order [1%nat])) = Halted
  \/ exists e',
       snd (main sample_identify sample_str_float
              (fun url => Raise (ConnectionError url)) midfield_pos sample_pitch
              Cartola midfield_response (in_order [1%nat])) = Uncaught e'.
Proof.
  apply (failed_download_is_fatal sample_identify sample_str_float
           (fun url => Raise (ConnectionError url)) midfield_pos sample_pitch
           Cartola midfield_response (in_order [1%nat])
           (sample_player 101 "Ana" "midfielder" 5 "PNG/101" "PNG/a")
           (ConnectionError "PNG/101")).
  - left; reflexivity.
  - left; reflexivity.
Defined.

(** ** When a chart is shown *)

Lemma get_line_up_returns (res : Response) :
  status_code res < 300 -> status res = "SUCCEEDED" ->
  get_line_up res
  = ([], Returned (map (tag "players") (out_players (output res))
                   ++ map (tag "bench") (out_bench (output res)))%list).
Proof.
  intros Hc Hs; unfold get_line_up.
  destruct (Z.leb_spec 300 (status_code res)); [lia|].
  now rewrite Hs.
Qed.

Lemma get_line_up_status (res : Response) (log : list event) (data : list Row) :
  get_line_up res = (log, Returned data) ->
  status_code res < 300 /\ status res = "SUCCEEDED".
Proof.
  unfold get_line_up.
  destruct (Z.leb_spec 300 (status_code res)); [discriminate|].
  destruct (String.eqb_spec (status res) "SUCCEEDED"); [auto|discriminate].
Qed.

Lemma transform_data_returns (pos : gmap string Coord) (data : list Row)
  (captain : bool) :
  data <> [] -> (forall r, In r data -> is_Some (pos !! plot_of data r)) ->
  exists out, transform_data pos data captain = Ok out.
Proof.
  intros Hne Hall.
  destruct (apply_result_total (place pos data) data) as [rows Hrows].
  { intros r Hr; apply place_present; auto. }
  unfold transform_data; destruct data; [contradiction|].
  rewrite Hrows; simpl; destruct captain; eexists; reflexivity.
Qed.

Lemma transform_row_drawable {Image : Type}
  (identify : list Byte.byte -> option Image)
  (session_get : string -> result Stream) (o : PlotRow) :
  drawable identify (transform_row session_get o) <->
  exists ph bd, session_get (photo (player (row o))) = Ok ph
    /\ session_get (club_badge (player (row o))) = Ok bd
    /\ is_Some (identify bd).
Proof.
  unfold transform_row, download_image.
  destruct (session_get (photo (player (row o)))) as [ph|e]; simpl.
  - destruct (session_get (club_badge (player (row o)))) as [bd|e]; simpl.
    + split; [eauto|]. intros (? & ? & H1 & H2 & H3); congruence.
    + split; [tauto|]. intros (? & ? & _ & ? & _); discriminate.
  - split; [tauto|]. intros (? & ? & ? & _); discriminate.
Qed.

(** X11: which runs end with a chart. For every schedule of the pool,
    [main] shows a chart exactly when the request succeeded (status code
    under 300, status ["SUCCEEDED"]), the answer has at least one row, the
    plot key of every row is in the table, and of every row the photo and
    the badge are downloaded and the badge is an image. A photo that is
    no image never costs the chart. *)
Theorem chart_shown_iff {Image : Type}
  (identify : list Byte.byte -> option Image) (str_float : Q -> string)
  (session_get : string -> result Stream) (pos : gmap string Coord)
  (pitch : Image) (game : Game) (res : Response) (sched : Schedule) :
  identify [] = None ->
  let rows := (map (tag "players") (out_players (output res))
               ++ map (tag "bench") (out_bench (output res)))%list in
  (exists f, main identify str_float session_get pos pitch game res sched
             = ([], Chart f))
  <->
  status_code res < 300 /\ status res = "SUCCEEDED" /\ rows <> []
  /\ (forall r, In r rows -> is_Some (pos !! plot_of rows r))
  /\ (forall r, In r rows ->
        exists ph bd, session_get (photo (player r)) = Ok ph
          /\ session_get (club_badge (player r)) = Ok bd
          /\ is_Some (identify bd)).
Proof.
  intros Hnil rows; split.
  - intros [f H]; unfold main in H.
    destruct (get_line_up res) as [log [rows0|]] eqn:Hres; [|discriminate].
    destruct (get_line_up_status res log rows0 Hres) as [Hc Hs].
    apply get_line_up_returned in Hres as [-> ->]; fold rows in H.
    destruct (transform_data pos rows _) as [data|e] eqn:Hlay; [|discriminate].
    destruct (compose identify str_float session_get pitch 5 sched data)
      as [g [[]|e]] eqn:Hcomp; [|discriminate].
    assert (Hne : rows <> []) by (intros E; rewrite E in Hlay; discriminate).
    apply transform_data_Forall2 in Hlay.
    apply (compose_ok identify str_float Hnil) in Hcomp as [Hall _].
    apply (Permutation_Forall
             (as_completed_Permutation session_get data 5 (ends sched) sched
                ltac:(lia)))
      in Hall.
    rewrite List.Forall_forall in Hall.
    repeat split; auto.
    + intros r Hr.
      destruct (Forall2_In_left _ _ _ Hlay r Hr) as (o & _ & _ & _ & Hp & Hl).
      unfold plot_of; rewrite <- Hp, Hl; eauto.
    + intros r Hr.
      destruct (Forall2_In_left _ _ _ Hlay r Hr) as (o & Ho & Hrow & _).
      rewrite <- Hrow; apply transform_row_drawable.
      apply Hall; now apply in_map.
  - intros (Hc & Hs & Hne & Hkeys & Hget); unfold main.
    rewrite (get_line_up_returns res Hc Hs); fold rows.
    destruct (transform_data_returns pos rows
                match game with Cartola => true | CartolaExpress => false end
                Hne Hkeys) as [data Hlay].
    rewrite Hlay; apply transform_data_Forall2 in Hlay.
    assert (Hall : Forall (drawable identify)
                     (as_completed (executor session_get 5 data (ends sched))
                        sched)).
    { eapply Permutation_Forall;
        [symmetry;
         apply (as_completed_Permutation session_get data 5 (ends sched) sched);
         lia|].
      apply List.Forall_forall; intros d Hd.
      apply in_map_iff in Hd as (o & <- & Ho).
      destruct (Forall2_In_right _ _ _ Hlay o Ho) as (r & Hr & Hrow & _).
      apply transform_row_drawable; rewrite Hrow; auto. }
    unfold compose.
    rewrite (draw_players_drawable identify str_float _ _ Hall).
    eexists; reflexivity.
Qed.

Lemma chart_shown_iff_witness :
  exists f, sample_main midfield_pos Cartola midfield_response (in_order [1%nat])
            = ([], Chart f).
Proof.
  apply (proj2 (chart_shown_iff sample_identify sample_str_float sample_get
                  midfield_pos sample_pitch Cartola midfield_response (in_order [1%nat])
                  eq_refl)).
  split; [simpl; lia|split; [reflexivity|split; [discriminate|split]]].
  - intros r [<-|[<-|[<-|[]]]]; vm_compute; eexists; reflexivity.
  - intros r [<-|[<-|[<-|[]]]]; eexists; eexists;
      (split; [reflexivity|split; [reflexivity|vm_compute; eexists; reflexivity]]).
Defined.

(** ** The traces of a chart *)

Lemma map_tagged {C} (h : Player -> C) (a b : string) (ps bs : list Player) :
  map (fun r => h (player r)) (map (tag a) ps ++ map (tag b) bs)
  = map h (ps ++ bs).
Proof. rewrite !map_app, !map_map; reflexivity. Qed.

(** X12: the traces of a chart are those of the answer's players. A chart
    that [main] shows has one trace for every record of ["players"] and
    ["bench"], their hover templates are the players' prices between
    ["$"] and ["<extra></extra>"], and the layout options are set; in
    Cartola Express, where no captain is marked, the labels are exactly
    the players' names. *)
Theorem chart_traces {Image : Type}
  (identify : list Byte.byte -> option Image) (str_float : Q -> string)
  (session_get : string -> result Stream) (pos : gmap string Coord)
  (pitch : Image) (game : Game) (res : Response) (sched : Schedule)
  (log : list event) (f : Figure Image) :
  identify [] = None ->
  main identify str_float session_get pos pitch game res sched = (log, Chart f) ->
  let players := (out_players (output res) ++ out_bench (output res))%list in
  length (traces f) = length players
  /\ Permutation (map hovertemplate (traces f))
       (map (fun p => ("$" ++ str_float (price p) ++ "<extra></extra>")%string)
            players)
  /\ (game = CartolaExpress ->
      Permutation (map text_label (traces f)) (map name players))
  /\ options f = Some chart_options.
Proof.
  intros Hnil H players; unfold main in H.
  destruct (get_line_up res) as [log' [rows|]] eqn:Hres; [|discriminate].
  apply get_line_up_returned in Hres as [-> Erows].
  destruct (transform_data pos rows _) as [data|e] eqn:Hlay; [|discriminate].
  destruct (compose identify str_float session_get pitch 5 sched data)
    as [g [[]|e]] eqn:Hcomp; [|discriminate].
  injection H as <- <-.
  apply (compose_ok identify str_float Hnil) in Hcomp as [Hall ->].
  pose proof (drawn_Permutation identify session_get 5 sched data ltac:(lia) Hall)
    as Hp.
  set (dr := drawn session_get 5 sched data) in *.
  assert (Hrow : Forall2 (fun r o => row o = r) rows data).
  { eapply Forall2_impl; [exact (transform_data_Forall2 _ _ _ _ Hlay)|].
    simpl; tauto. }
  assert (Hby : forall (C : Type) (h : Player -> C),
            Permutation (map (fun fr => h (player (row (laid fr)))) dr)
                        (map h players)).
  { intros C h.
    rewrite <- (map_map laid (fun o => h (player (row o)))).
    rewrite (Permutation_map (fun o => h (player (row o))) Hp).
    rewrite (Forall2_map_eq (fun r => h (player r))
               (fun o => h (player (row o))) rows data)
      by (eapply Forall2_impl; [exact Hrow|]; now intros r o <-).
    rewrite Erows; unfold players; now rewrite map_tagged. }
  simpl traces; simpl options.
  split; [|split; [|split; [|reflexivity]]].
  - rewrite length_map, <- (length_map (fun fr => player (row (laid fr)))).
    rewrite (Permutation_length (Hby Player (fun p => p))).
    now rewrite map_id.
  - rewrite map_map.
    exact (Hby string
             (fun p => ("$" ++ str_float (price p) ++ "<extra></extra>")%string)).
  - intros ->.
    rewrite map_map; simpl.
    rewrite <- (map_map laid r_name).
    rewrite (Permutation_map r_name Hp).
    rewrite (Forall2_map_eq (fun r => name (player r)) r_name rows data).
    + rewrite Erows; unfold players; now rewrite map_tagged.
    + eapply Forall2_impl; [exact (no_captain_column _ _ _ Hlay)|].
      simpl; tauto.
Qed.

Lemma chart_traces_witness :
  exists f : Figure (list Byte.byte),
    sample_main midfield_pos CartolaExpress midfield_response (in_order [1%nat])
    = ([], Chart f)
    /\ Permutation (map text_label (traces f)) ["Ana"; "Bia"; "Cris"].
Proof.
  eexists.
  assert (H : sample_main midfield_pos CartolaExpress midfield_response (in_order [1%nat])
              = ([], Chart _)) by (vm_compute; reflexivity).
  split; [exact H|].
  apply (proj1 (proj2 (proj2 (chart_traces sample_identify sample_str_float
                                sample_get midfield_pos sample_pitch
                                CartolaExpress midfield_response (in_order [1%nat]) [] _
                                eq_refl H))) eq_refl).
Defined.

(** ** More on the thread pool *)

Section PoolRuns.

Variable session_get : string -> result Stream.
Variable rows : list PlotRow.

(** X13: the pool does all the work once. For any positive number of
    workers and any schedule, when the pool has run no task is left
    waiting or running, every task has ended exactly once, and
    [as_completed] yields the result of every row exactly once, whenever
    it is called and however the set of the futures is iterated. *)
Theorem every_future_completes_once (k : nat) (e : list nat)
  (sched : Schedule) :
  (0 < k)%nat ->
  queue (executor session_get k rows e) = []
  /\ running (executor session_get k rows e) = []
  /\ List.NoDup (finished (executor session_get k rows e))
  /\ (forall t, In t (finished (executor session_get k rows e))
                <-> (t < length rows)%nat)
  /\ Permutation (as_completed (executor session_get k rows e) sched)
                 (map (transform_row session_get) rows).
Proof.
  intros Hk.
  destruct (run_pool_spec session_get rows k (length rows) Hk e
              (submit_all rows)) as [[Hperm _] Hlen];
    [apply pool_inv_submit|reflexivity|].
  fold (executor session_get k rows e) in Hperm, Hlen.
  pose proof (Permutation_length Hperm) as Hl.
  rewrite !length_app, length_seq in Hl.
  destruct (queue (executor session_get k rows e)) eqn:Hq;
    [|simpl in Hl; lia].
  destruct (running (executor session_get k rows e)) eqn:Hr;
    [|simpl in Hl; lia].
  simpl in Hperm.
  split; [reflexivity|split; [reflexivity|split; [|split]]].
  - eapply Permutation_NoDup; [symmetry; exact Hperm|apply seq_NoDup].
  - intros t; split; intros Ht.
    + apply (Permutation_in _ Hperm), in_seq in Ht; lia.
    + apply (Permutation_in _ (Permutation_sym Hperm)), in_seq; lia.
  - now apply as_completed_Permutation.
Qed.

Lemma remove_nth_length {A} (j : nat) (l : list A) :
  (length (remove_nth j l) <= length l)%nat.
Proof.
  revert j; induction l as [|a l IH]; intros [|j]; simpl; try lia.
  specialize (IH j); lia.
Qed.

Lemma refill_bound (k : nat) (p : Pool) :
  (length (running p) <= k)%nat -> (length (running (refill k p)) <= k)%nat.
Proof.
  intros H; unfold refill; simpl.
  rewrite length_app, length_firstn; lia.
Qed.

Lemma complete_bound (c : nat) (p : Pool) :
  (length (running (complete session_get rows c p)) <= length (running p))%nat.
Proof.
  unfold complete; destruct (running p) as [|t0 run] eqn:Hr;
    [rewrite Hr; simpl; lia|].
  cbn [running]; apply remove_nth_length.
Qed.

(** X15: the pool is bounded. At every step of a run, for any schedule,
    the tasks on a worker are never more than [max_workers], also right
    after the idle workers have taken new tasks: [main] never has more than
    five downloads of rows under way. *)
Theorem pool_never_exceeds_workers (k : nat) (sched : list nat) (steps : nat) :
  (length (running (run_pool session_get k rows sched steps (submit_all rows)))
   <= k)%nat
  /\ (length (running
                (refill k (run_pool session_get k rows sched steps
                             (submit_all rows)))) <= k)%nat.
Proof.
  assert (H : forall fuel s p, (length (running p) <= k)%nat ->
            (length (running (run_pool session_get k rows s fuel p)) <= k)%nat).
  { induction fuel as [|fuel IH]; intros s p Hp; simpl; [assumption|].
    apply IH.
    pose proof (complete_bound (hd 0%nat s) (refill k p)).
    pose proof (refill_bound k p Hp); lia. }
  assert (H0 : (length (running (run_pool session_get k rows sched steps
                                   (submit_all rows))) <= k)%nat)
    by (apply H; simpl; lia).
  split; [exact H0|now apply refill_bound].
Qed.

End PoolRuns.

Lemma every_future_completes_once_witness :
  Permutation
    (as_completed (executor sample_get 5 midfield_laid [2%nat; 0%nat])
       {| ends := [2%nat; 0%nat]; early := 2; picks := [1%nat] |})
    (map (transform_row sample_get) midfield_laid).
Proof.
  apply (every_future_completes_once sample_get midfield_laid 5 [2%nat; 0%nat]
           {| ends := [2%nat; 0%nat]; early := 2; picks := [1%nat] |}).
  lia.
Defined.

(** ** The table and the sizes of the groups *)

(** X16: a table that covers the groups is enough. Let [cap] bound the
    size of every group of the frame; when the table has an entry for
    every type, position and rank from 1 to [cap], the layout of a frame
    with at least one row returns, duplicate ids or not: no rank ever
    leaves the range 1 to the size of its group. *)
Theorem covered_table_never_raises (pos : gmap string Coord)
  (cap : string -> string -> Z) (data : list Row) (captain : bool) :
  data <> [] ->
  (forall r, In r data ->
     Z.of_nat (length (group_of data r)) <= cap (type r) (position (player r))) ->
  (forall t p k, 1 <= k <= cap t p -> is_Some (pos !! plot_key t p k)) ->
  exists out, transform_data pos data captain = Ok out
    /\ length out = length data.
Proof.
  intros Hne Hcap Hpos.
  destruct (transform_data_returns pos data captain Hne) as [out Hout].
  - intros r Hr; unfold plot_of; apply Hpos.
    pose proof (rank_of_bounds data r Hr); specialize (Hcap r Hr); lia.
  - exists out; split; [exact Hout|].
    apply transform_data_Forall2, Forall2_length in Hout; auto.
Qed.

Lemma covered_table_never_raises_witness :
  exists out, transform_data midfield_pos midfield_rows true = Ok out
    /\ length out = length midfield_rows.
Proof.
  apply (covered_table_never_raises midfield_pos
           (fun t p => if String.eqb t "players" && String.eqb p "midfielder"
                       then 3 else 0) midfield_rows true).
  - discriminate.
  - intros r [<-|[<-|[<-|[]]]]; vm_compute; discriminate.
  - intros t p k Hk.
    destruct (String.eqb_spec t "players") as [->|]; simpl in Hk; [|lia].
    destruct (String.eqb_spec p "midfielder") as [->|]; simpl in Hk; [|lia].
    assert (Hc : k = 1 \/ k = 2 \/ k = 3) by lia.
    destruct Hc as [->|[->| ->]]; vm_compute; eexists; reflexivity.
Defined.

(** X17: one player too many raises. In a frame with pairwise distinct
    ids, when the table has no entry for the rank that equals the size of
    some row's group, the layout raises a [KeyError] on a key the table
    lacks: the greatest id of the group does get that rank. *)
Theorem crowded_group_raises (pos : gmap string Coord) (data : list Row)
  (captain : bool) (r : Row) :
  List.NoDup (map pid data) -> In r data ->
  pos !! plot_key (type r) (position (player r))
           (Z.of_nat (length (group_of data r))) = None ->
  exists r', In r' data /\ pos !! plot_of data r' = None
    /\ transform_data pos data captain = Raise (KeyError (plot_of data r')).
Proof.
  intros Hnd Hr Hnone.
  set (g := group_of data r) in *.
  assert (Hg : In r g)
    by (apply in_group_of; split; [assumption|apply same_group_refl]).
  assert (Hlast : exists a, In a g /\ 1 + smaller pid g a = Z.of_nat (length g)).
  { assert (Hin : In (Z.of_nat (length g)) (map (fun a => 1 + smaller pid g a) g)).
    { eapply Permutation_in;
        [symmetry; apply places_dense; now apply NoDup_map_filter|].
      apply in_seq_Z; destruct g; [destruct Hg|simpl length; lia]. }
    apply in_map_iff in Hin as (a & Ha & Hin); eauto. }
  destruct Hlast as (a & Ha & Hrk).
  apply in_group_of in Ha as [Ha Hsame].
  assert (Hkey : pos !! plot_of data a = None).
  { unfold plot_of; rewrite (rank_of_distinct data a Hnd Ha).
    rewrite (group_of_same data r a Hsame); fold g; rewrite Hrk.
    apply same_group_eq in Hsame as [<- <-]; exact Hnone. }
  destruct (apply_result_raise (place pos data) data a _ Ha
              (place_missing pos data a Hkey)) as (r' & e' & Hr' & He' & Happ).
  apply place_raise in He' as [Hn ->].
  exists r'; split; [assumption|split; [assumption|]].
  unfold transform_data; destruct data; [destruct Hr|].
  now rewrite Happ.
Qed.

Lemma crowded_group_raises_witness :
  exists r', In r' midfield_rows
    /\ delete "players-midfielder-3" midfield_pos !! plot_of midfield_rows r' = None
    /\ transform_data (delete "players-midfielder-3" midfield_pos) midfield_rows
         false
       = Raise (KeyError (plot_of midfield_rows r')).
Proof.
  apply (crowded_group_raises (delete "players-midfielder-3" midfield_pos)
           midfield_rows false
           (tag "players" (sample_player 101 "Ana" "midfielder" 5 "PNG/101" "PNG/a"))).
  - change (List.NoDup [101; 102; 103]).
    repeat (constructor; [simpl; intuition lia|]); constructor.
  - left; reflexivity.
  - vm_compute; reflexivity.
Defined.
